(** * The QR pairing relay of whatsmeow (qrchan.go) and Device.Delete (store/store.go)

    A shallow embedding of the two source files:

    - [store]: the [Device] record, the [DeviceContainer] interface and
      [Device.Save] / [Device.Delete];
    - [gochan]: Go channels as the relay uses them (buffered send, non-blocking
      send, close, receive, with the run-time panics of the language);
    - [qrchan]: [QRChannelItem], [qrChannel], [emitQRs], [handleEvent] and
      [GetQRChannel].  The two goroutine bodies are cut into atomic
      instructions (one per shared-memory access) and run under an explicit
      scheduler, so that every interleaving of the event handler, the
      background emitter and the consumer of the stream is a schedule. *)

From Stdlib Require Import String List NArith ZArith Bool Lia.
From stdpp Require Import base option list.
Import ListNotations.

Local Open Scope string_scope.
Local Open Scope list_scope.

(* ===================================================================== *)
(** ** store/store.go *)
(* ===================================================================== *)

Module store.

(** Modelled from the spec: [types.JID] is declared outside the sources; the code
    under study only stores it behind a pointer and tests that pointer for
    nil, so it is kept as its textual form. *)
Definition JID : Type := string.

(** Modelled from the spec: the two [error] values of the stream-request entry
    point are declared outside the sources (the spec calls them
    AlreadyConnected and IdentityAlreadyStored); any other Go error is kept
    by its message. *)
Inductive error : Type :=
| ErrQRAlreadyConnected
| ErrQRStoreContainsID
| ErrOther (msg : string).

(** [type Device struct]: the identity pointer and the scalar fields.  The
    key material and the sub-stores are never read or written by [Save] and
    [Delete]; the [Container] field is the interface value passed explicitly
    below. *)
Record Device : Type := mkDevice {
  RegistrationID : N;
  ID : option JID;
  Platform : string;
  BusinessName : string;
  PushName : string;
  Initialized : bool
}.

Definition set_ID (id : option JID) (device : Device) : Device :=
  {| RegistrationID := RegistrationID device;
     ID := id;
     Platform := Platform device;
     BusinessName := BusinessName device;
     PushName := PushName device;
     Initialized := Initialized device |}.

(** [type DeviceContainer interface].  Both methods receive the [*Device]
    pointer, so an implementation may write through it: a method returns the
    container's new state, the device as it left it, and the error. *)
Class DeviceContainer (C : Type) : Type := {
  PutDevice : C -> Device -> C * Device * option error;
  DeleteDevice : C -> Device -> C * Device * option error
}.

Section Methods.
Context {C : Type} `{DeviceContainer C}.

(** [func (device *Device) Save() error] *)
Definition Save (c : C) (device : Device) : C * Device * option error :=
  PutDevice c device.

(** [func (device *Device) Delete() error] *)
Definition Delete (c : C) (device : Device) : C * Device * option error :=
  let '(c', device', err) := DeleteDevice c device in
  match err with
  | Some e => (c', device', Some e)
  | None => (c', set_ID None device', None)
  end.

End Methods.

(** A container kept in memory, for running the methods: the identities it
    holds.  Deleting a device without an identity, or one it does not hold,
    is an error; it never writes through the device pointer. *)
Definition memContainer : Type := list JID.

Definition mem_delete (c : memContainer) (device : Device)
  : memContainer * Device * option error :=
  match ID device with
  | None => (c, device, Some (ErrOther "device JID must be known before accessing database"))
  | Some j =>
      if existsb (String.eqb j) c
      then (List.filter (fun k => negb (String.eqb j k)) c, device, None)
      else (c, device, Some (ErrOther "no such device"))
  end.

Definition mem_put (c : memContainer) (device : Device)
  : memContainer * Device * option error :=
  match ID device with
  | None => (c, device, Some (ErrOther "device JID must be known before accessing database"))
  | Some j => (j :: List.filter (fun k => negb (String.eqb j k)) c, device, None)
  end.

#[export] Instance memDeviceContainer : DeviceContainer memContainer :=
  {| PutDevice := mem_put; DeleteDevice := mem_delete |}.

End store.

(* ===================================================================== *)
(** ** Go channels *)
(* ===================================================================== *)

Module gochan.

(** [make(chan A, cap)]: the buffered values in arrival order, the capacity
    and whether [close] was called. *)
Record chan (A : Type) : Type := mkChan {
  buf : list A;
  cap : nat;
  chclosed : bool
}.
Arguments mkChan {A} _ _ _.
Arguments buf {A} _.
Arguments cap {A} _.
Arguments chclosed {A} _.

Definition make {A : Type} (n : nat) : chan A := mkChan [] n false.

(** The three outcomes of a send: the value is queued, the sender would have
    to wait, or the channel is closed and the sender panics. *)
Inductive send_result (A : Type) : Type :=
| SendOk (c : chan A)
| SendWouldBlock
| SendPanic.
Arguments SendOk {A} _.
Arguments SendWouldBlock {A}.
Arguments SendPanic {A}.

(** [c <- x].  A blocking send waits on [SendWouldBlock]; a [select] with a
    [default] case takes the default on it.  Both panic on a closed channel. *)
Definition send {A : Type} (c : chan A) (x : A) : send_result A :=
  if chclosed c then SendPanic
  else if (length (buf c) <? cap c)%nat
       then SendOk (mkChan (buf c ++ [x]) (cap c) false)
       else SendWouldBlock.

(** [close(c)]: [None] is the panic of closing a closed channel. *)
Definition close {A : Type} (c : chan A) : option (chan A) :=
  if chclosed c then None else Some (mkChan (buf c) (cap c) true).

Inductive recv_result (A : Type) : Type :=
| RecvValue (x : A) (c : chan A)
| RecvClosed
| RecvWouldBlock.
Arguments RecvValue {A} _ _.
Arguments RecvClosed {A}.
Arguments RecvWouldBlock {A}.

(** [x, ok := <-c]: buffered values are still delivered after [close]; a
    drained closed channel yields [ok = false] at once. *)
Definition recv {A : Type} (c : chan A) : recv_result A :=
  match buf c with
  | x :: rest => RecvValue x (mkChan rest (cap c) (chclosed c))
  | [] => if chclosed c then RecvClosed else RecvWouldBlock
  end.

End gochan.

(* ===================================================================== *)
(** ** qrchan.go *)
(* ===================================================================== *)

Module qrchan.
Import store gochan.

(** [type QRChannelItem string] and its three close values. *)
Definition QRChannelItem : Type := string.

Definition QRChannelSuccess : QRChannelItem := "success".
Definition QRChannelTimeout : QRChannelItem := "timeout".
Definition QRChannelErrUnexpectedEvent : QRChannelItem := "err-unexpected-state".

(** [func (qrci QRChannelItem) IsQR() bool] *)
Definition IsQR (qrci : QRChannelItem) : bool :=
  negb (String.eqb qrci QRChannelSuccess)
  && negb (String.eqb qrci QRChannelTimeout)
  && negb (String.eqb qrci QRChannelErrUnexpectedEvent).

(** Modelled from the spec: the [events] package is outside the sources.  The
    handler's type switch names five event types; [QR] carries [Codes] and
    [Timeout] (a [time.Duration], in nanoseconds); every other dynamic type
    falls to the default case and is kept by its name. *)
Inductive event : Type :=
| QR (Codes : list string) (Timeout : Z)
| PairSuccess
| Disconnected
| Connected
| ConnectFailure
| OtherEvent (kind : string).

(** Modelled from the spec: [Client] is declared outside the sources.  What the
    relay uses of it: the connectivity query, the store's device, the bus
    (handlers by token) and the disconnect action, whose calls are counted. *)
Record Client : Type := mkClient {
  isConnected : bool;
  Store : Device;
  eventHandlers : list N;
  lastHandlerID : N;
  disconnectCalls : nat
}.

(** Modelled from the spec: [IsConnected() -> bool]. *)
Definition IsConnected (cli : Client) : bool := isConnected cli.

(** Modelled from the spec: [Subscribe(handler) -> token]; tokens are drawn
    from a 32-bit counter. *)
Definition AddEventHandler (cli : Client) : Client * N :=
  let nextID := ((lastHandlerID cli + 1) mod 2 ^ 32)%N in
  (mkClient (isConnected cli) (Store cli) (eventHandlers cli ++ [nextID])
            nextID (disconnectCalls cli),
   nextID).

(** Modelled from the spec: [Unsubscribe(token)]. *)
Definition RemoveEventHandler (cli : Client) (id : N) : Client :=
  mkClient (isConnected cli) (Store cli)
           (List.filter (fun h => negb (N.eqb h id)) (eventHandlers cli))
           (lastHandlerID cli) (disconnectCalls cli).

(** Modelled from the spec: [Disconnect()], fire-and-forget. *)
Definition Disconnect (cli : Client) : Client :=
  mkClient false (Store cli) (eventHandlers cli) (lastHandlerID cli)
           (S (disconnectCalls cli)).

(** [type qrChannel struct].  [cli] is a pointer: the client lives in the
    [world] below.  The embedded mutex is never locked and [log] only
    receives debug lines. *)
Record qrChannel : Type := mkQRChannel {
  handlerID : N;
  closed : N;
  output : chan QRChannelItem;
  stopQRs : chan unit
}.

(** [atomic.CompareAndSwapUint32(addr, old, new)] on the value at [addr]:
    the value afterwards and whether the swap happened. *)
Definition CompareAndSwapUint32 (v old new : N) : N * bool :=
  if N.eqb v old then (new, true) else (v, false).

(** [func (cli *Client) GetQRChannel() (<-chan QRChannelItem, error)]: the
    returned pair, the client afterwards and the relay that was created. *)
Definition GetQRChannel (cli : Client)
  : (option (chan QRChannelItem) * option error) * Client * option qrChannel :=
  if IsConnected cli then ((None, Some ErrQRAlreadyConnected), cli, None)
  else if ID (Store cli) is Some _ then ((None, Some ErrQRStoreContainsID), cli, None)
  else
    let ch : chan QRChannelItem := make 7 in
    let '(cli', id) := AddEventHandler cli in
    ((Some ch, None), cli', Some (mkQRChannel id 0 ch (make 0))).

(** *** The goroutines, instruction by instruction *)

(** Where a goroutine stands.  [H_*] are the instructions of [handleEvent],
    [E_*] those of [emitQRs]; each constructor holds the locals that are live
    there.  One constructor is one access to shared state.  [emitQRs] pops
    from [evt.Codes] in place; every delivery carries an event object of its
    own, so the remaining codes are a local of the emitter it started. *)
Inductive pc : Type :=
| H_switch (rawEvt : event)                  (* the type switch *)
| H_closeStop (outputType : QRChannelItem)   (* close(qrc.stopQRs) *)
| H_cas (outputType : QRChannelItem)         (* CompareAndSwapUint32(&qrc.closed, 0, 1) *)
| H_send (outputType : QRChannelItem)        (* qrc.output <- outputType *)
| H_closeOutput                              (* close(qrc.output) *)
| H_remove                                   (* qrc.cli.RemoveEventHandler(qrc.handlerID) *)
| E_loop (Codes : list string) (Timeout : Z) (* len(evt.Codes) == 0 and the pop *)
| E_cas                                      (* CompareAndSwapUint32(&qrc.closed, 0, 1) *)
| E_sendTimeout                              (* qrc.output <- QRChannelTimeout *)
| E_closeOutput                              (* close(qrc.output) *)
| E_disconnect                               (* qrc.cli.Disconnect() *)
| E_send (nextCode : string) (Codes : list string) (Timeout : Z)
                                             (* select { case qrc.output <- ...: default: } *)
| E_wait (Codes : list string) (Timeout : Z) (* select { case <-time.After: case <-qrc.stopQRs: } *)
| Done                                       (* returned *)
| Panicked.

(** What happened, by goroutine index: the bus called the handler, and what
    a goroutine did to the world outside itself.  [Wrote] is the send of a
    code in the emitter's [select]; [WroteStatus] is one of the two sends of
    a close value ("closing channel with status ..."). *)
Inductive effect : Type :=
| Delivered (tid : nat) (rawEvt : event)
| Spawned (parent child : nat)
| StopClosed (tid : nat)
| CasWon (tid : nat)
| CasLost (tid : nat)
| Wrote (tid : nat) (item : QRChannelItem)
| WroteStatus (tid : nat) (item : QRChannelItem)
| OutputClosed (tid : nat)
| HandlerRemoved (tid : nat)
| DisconnectRequested (tid : nat)
| Dropped (tid : nat)
| Cancelled (tid : nat)
| Panic (tid : nat).

(** The relay, its client, the goroutines started so far, the effects in the
    order they happened, and the consumer's side of the stream: the values it
    has read and whether it has seen the stream closed.  A panic that no one
    recovers ends the program: [crashed]. *)
Record world : Type := mkWorld {
  relay : qrChannel;
  client : Client;
  threads : list pc;
  trace : list effect;
  received : list QRChannelItem;
  sawClosed : bool;
  crashed : bool
}.

Definition set_thread (i : nat) (p : pc) (w : world) : world :=
  mkWorld (relay w) (client w) (<[i := p]> (threads w)) (trace w)
          (received w) (sawClosed w) (crashed w).

Definition emit (e : effect) (w : world) : world :=
  mkWorld (relay w) (client w) (threads w) (trace w ++ [e])
          (received w) (sawClosed w) (crashed w).

Definition set_closed (v : N) (w : world) : world :=
  mkWorld (mkQRChannel (handlerID (relay w)) v (output (relay w)) (stopQRs (relay w)))
          (client w) (threads w) (trace w) (received w) (sawClosed w) (crashed w).

Definition set_output (c : chan QRChannelItem) (w : world) : world :=
  mkWorld (mkQRChannel (handlerID (relay w)) (closed (relay w)) c (stopQRs (relay w)))
          (client w) (threads w) (trace w) (received w) (sawClosed w) (crashed w).

Definition set_stopQRs (c : chan unit) (w : world) : world :=
  mkWorld (mkQRChannel (handlerID (relay w)) (closed (relay w)) (output (relay w)) c)
          (client w) (threads w) (trace w) (received w) (sawClosed w) (crashed w).

Definition set_client (cli : Client) (w : world) : world :=
  mkWorld (relay w) cli (threads w) (trace w) (received w) (sawClosed w) (crashed w).

Definition spawn (p : pc) (w : world) : world :=
  mkWorld (relay w) (client w) (threads w ++ [p]) (trace w)
          (received w) (sawClosed w) (crashed w).

Definition panic (i : nat) (w : world) : world :=
  mkWorld (relay w) (client w) (<[i := Panicked]> (threads w)) (trace w ++ [Panic i])
          (received w) (sawClosed w) true.

(** One instruction of goroutine [i], standing at [p].  [None]: the goroutine
    cannot move (it has returned, or its blocking send has to wait). *)
Definition thread_step (i : nat) (p : pc) (w : world) : option world :=
  match p with
  (* handleEvent *)
  | H_switch rawEvt =>
      match rawEvt with
      | QR Codes Timeout =>
          (* go qrc.emitQRs(evt); return *)
          Some (emit (Spawned i (length (threads w)))
                  (spawn (E_loop Codes Timeout) (set_thread i Done w)))
      | PairSuccess => Some (set_thread i (H_closeStop QRChannelSuccess) w)
      | Disconnected => Some (set_thread i (H_closeStop QRChannelTimeout) w)
      | Connected | ConnectFailure =>
          Some (set_thread i (H_closeStop QRChannelErrUnexpectedEvent) w)
      | OtherEvent _ => Some (set_thread i Done w)
      end
  | H_closeStop outputType =>
      match close (stopQRs (relay w)) with
      | Some c => Some (set_thread i (H_cas outputType) (emit (StopClosed i) (set_stopQRs c w)))
      | None => Some (panic i w)
      end
  | H_cas outputType =>
      let '(v, swapped) := CompareAndSwapUint32 (closed (relay w)) 0 1 in
      if swapped
      then Some (set_thread i (H_send outputType) (emit (CasWon i) (set_closed v w)))
      else Some (set_thread i H_remove (emit (CasLost i) w))
  | H_send outputType =>
      match send (output (relay w)) outputType with
      | SendOk c => Some (set_thread i H_closeOutput (emit (WroteStatus i outputType) (set_output c w)))
      | SendWouldBlock => None
      | SendPanic => Some (panic i w)
      end
  | H_closeOutput =>
      match close (output (relay w)) with
      | Some c => Some (set_thread i H_remove (emit (OutputClosed i) (set_output c w)))
      | None => Some (panic i w)
      end
  | H_remove =>
      Some (set_thread i Done
              (emit (HandlerRemoved i)
                 (set_client (RemoveEventHandler (client w) (handlerID (relay w))) w)))
  (* emitQRs *)
  | E_loop Codes Timeout =>
      match Codes with
      | [] => Some (set_thread i E_cas w)
      | nextCode :: rest => Some (set_thread i (E_send nextCode rest Timeout) w)
      end
  | E_cas =>
      let '(v, swapped) := CompareAndSwapUint32 (closed (relay w)) 0 1 in
      if swapped
      then Some (set_thread i E_sendTimeout (emit (CasWon i) (set_closed v w)))
      else Some (set_thread i Done (emit (CasLost i) w))
  | E_sendTimeout =>
      match send (output (relay w)) QRChannelTimeout with
      | SendOk c => Some (set_thread i E_closeOutput (emit (WroteStatus i QRChannelTimeout) (set_output c w)))
      | SendWouldBlock => None
      | SendPanic => Some (panic i w)
      end
  | E_closeOutput =>
      match close (output (relay w)) with
      | Some c => Some (set_thread i E_disconnect (emit (OutputClosed i) (set_output c w)))
      | None => Some (panic i w)
      end
  | E_disconnect =>
      Some (set_thread i Done
              (emit (DisconnectRequested i) (set_client (Disconnect (client w)) w)))
  | E_send nextCode Codes Timeout =>
      match send (output (relay w)) nextCode with
      | SendOk c => Some (set_thread i (E_wait Codes Timeout) (emit (Wrote i nextCode) (set_output c w)))
      | SendWouldBlock => Some (set_thread i Done (emit (Dropped i) w))
      | SendPanic => Some (panic i w)
      end
  | E_wait Codes Timeout =>
      (* case <-time.After(evt.Timeout) *)
      Some (set_thread i (E_loop Codes Timeout) w)
  | Done | Panicked => None
  end.

(** What the scheduler can pick: the bus calls the handler with an event (a
    new invocation of [handleEvent]), a goroutine runs its next instruction,
    a waiting emitter takes the [<-qrc.stopQRs] case of its [select], or the
    consumer reads the stream. *)
Inductive action : Type :=
| Deliver (rawEvt : event)
| Run (i : nat)
| Cancel (i : nat)
| Receive.

Definition consume (w : world) : option world :=
  match recv (output (relay w)) with
  | RecvValue x c =>
      Some (mkWorld (mkQRChannel (handlerID (relay w)) (closed (relay w)) c (stopQRs (relay w)))
              (client w) (threads w) (trace w) (received w ++ [x]) (sawClosed w) (crashed w))
  | RecvClosed =>
      Some (mkWorld (relay w) (client w) (threads w) (trace w) (received w) true (crashed w))
  | RecvWouldBlock => None
  end.

Definition step (a : action) (w : world) : option world :=
  if crashed w then None
  else
    match a with
    | Deliver rawEvt =>
        Some (emit (Delivered (length (threads w)) rawEvt) (spawn (H_switch rawEvt) w))
    | Run i =>
        match threads w !! i with
        | Some p => thread_step i p w
        | None => None
        end
    | Cancel i =>
        match threads w !! i with
        | Some (E_wait _ _) =>
            match recv (stopQRs (relay w)) with
            | RecvClosed => Some (set_thread i Done (emit (Cancelled i) w))
            | _ => None
            end
        | _ => None
        end
    | Receive => consume w
    end.

(** A schedule runs from left to right and is refused as a whole when one of
    its actions cannot be taken. *)
Fixpoint run (sch : list action) (w : world) : option world :=
  match sch with
  | [] => Some w
  | a :: rest =>
      match step a w with
      | Some w' => run rest w'
      | None => None
      end
  end.

(** The world right after a call of [GetQRChannel] that returned a stream. *)
Definition start (cli : Client) : option world :=
  match GetQRChannel cli with
  | (_, cli', Some qrc) => Some (mkWorld qrc cli' [] [] [] false false)
  | _ => None
  end.

(** A client that has not connected and whose store holds no identity. *)
Definition newClient : Client :=
  mkClient false (mkDevice 0 None "" "" "" false) [] 0 0.

(** [GetQRChannel] on [cli], then the schedule. *)
Definition exec (cli : Client) (sch : list action) : option world :=
  match start cli with
  | Some w => run sch w
  | None => None
  end.

(** Readings of a trace. *)
Definition written (tr : list effect) : list QRChannelItem :=
  omap (fun e => match e with Wrote _ x | WroteStatus _ x => Some x | _ => None end) tr.

Definition count_effect (f : effect -> bool) (tr : list effect) : nat :=
  length (List.filter f tr).

End qrchan.


(* ===================================================================== *)
(** ** Schedules and readings used by the statements *)
(* ===================================================================== *)

Import store gochan qrchan.

(** The close value the specification gives for each event kind: success for
    a pairing success, timeout for a disconnection, unexpected-event for an
    already-connected or connect-failure event, none for a code sequence or
    any other event.  Written from the specification's words, to be compared
    with what [handleEvent] sends. *)
Definition spec_terminal (rawEvt : event) : option QRChannelItem :=
  match rawEvt with
  | PairSuccess => Some QRChannelSuccess
  | Disconnected => Some QRChannelTimeout
  | Connected => Some QRChannelErrUnexpectedEvent
  | ConnectFailure => Some QRChannelErrUnexpectedEvent
  | QR _ _ => None
  | OtherEvent _ => None
  end.

(** One turn of the emitter's loop for a code, with the consumer reading the
    code before its validity runs out: pop, send, (consumer reads), timer. *)
Fixpoint emit_schedule (i : nat) (n : nat) : list action :=
  match n with
  | O => []
  | S n' => Run i :: Run i :: Receive :: Run i :: emit_schedule i n'
  end.

(** The emitter finds the sequence empty: length test, compare-and-swap,
    send of the timeout, close, disconnect; the consumer reads the timeout
    and then sees the stream closed. *)
Definition exhaust_schedule (i : nat) : list action :=
  [Run i; Run i; Run i; Run i; Run i; Receive; Receive].

(** A code sequence is delivered to a fresh relay (invocation 0 of the
    handler starts emitter 1), no other event arrives, and the consumer
    keeps reading. *)
Definition drain_schedule (Codes : list string) (Timeout : Z) : list action :=
  Deliver (QR Codes Timeout) :: Run 0 :: emit_schedule 1 (length Codes) ++ exhaust_schedule 1.

(** Two codes, and a pairing success that arrives while the emitter stands
    between popping the second code and sending it.  The handler's send of
    the status and its close of the stream are two instructions; the
    emitter's send falls between them. *)
Definition late_code_schedule : list action :=
  [ Deliver (QR ["1@ABC"; "2@DEF"] 20); Run 0;
    Run 1; Run 1; Receive; Run 1;      (* first code sent and read, timer *)
    Run 1;                             (* second code popped *)
    Deliver PairSuccess;
    Run 2; Run 2; Run 2; Run 2;        (* switch, close stop, CAS, send status *)
    Run 1;                             (* the emitter's select sends the code *)
    Run 2; Run 2;                      (* close output, remove handler *)
    Receive; Receive; Receive ].

(** The same race with the handler's close first: the emitter's send finds
    the stream closed. *)
Definition send_on_closed_schedule : list action :=
  [ Deliver (QR ["1@ABC"; "2@DEF"] 20); Run 0;
    Run 1; Run 1; Receive; Run 1;
    Run 1;
    Deliver PairSuccess;
    Run 2; Run 2; Run 2; Run 2; Run 2; Run 2;
    Run 1 ].

(** Two terminal-causing events reach the handler while it is subscribed;
    the first invocation runs to its end, then the second runs. *)
Definition two_terminal_schedule (first second : event) : list action :=
  [ Deliver first; Deliver second;
    Run 0; Run 0; Run 0; Run 0; Run 0; Run 0;
    Run 1; Run 1 ].

(** The two invocations in step with each other. *)
Definition two_terminal_interleaved (first second : event) : list action :=
  [ Deliver first; Deliver second;
    Run 0; Run 1; Run 0; Run 1 ].

Definition is_HandlerRemoved (e : effect) : bool :=
  match e with HandlerRemoved _ => true | _ => false end.

Definition is_StopClosed (e : effect) : bool :=
  match e with StopClosed _ => true | _ => false end.

Definition is_CasWon (e : effect) : bool :=
  match e with CasWon _ => true | _ => false end.

Definition is_WroteStatus (e : effect) : bool :=
  match e with WroteStatus _ _ => true | _ => false end.

Definition is_OutputClosed (e : effect) : bool :=
  match e with OutputClosed _ => true | _ => false end.

Definition is_Panic (e : effect) : bool :=
  match e with Panic _ => true | _ => false end.

(** The world right after [GetQRChannel] on [newClient]. *)
Definition fresh : world :=
  mkWorld (mkQRChannel 1 0 (make 7) (make 0))
          (mkClient false (mkDevice 0 None "" "" "" false) [1%N] 1 0)
          [] [] [] false false.

(** [fresh] with one event handed to the handler (invocation 0). *)
Definition invoked (rawEvt : event) : world :=
  mkWorld (relay fresh) (client fresh) [H_switch rawEvt] [Delivered 0 rawEvt] [] false false.

(** Eight codes and a consumer that never reads: the first seven fill the
    buffer, and the emitter stands at the send of the eighth. *)
Definition backlog_schedule : list action :=
  Deliver (QR ["1"; "2"; "3"; "4"; "5"; "6"; "7"; "8"] 20) :: Run 0
  :: concat (replicate 7 [Run 1; Run 1; Run 1]) ++ [Run 1].

Definition backlog : world :=
  Eval vm_compute in
    match run backlog_schedule fresh with
    | Some w => w
    | None => fresh
    end.

(** An empty code sequence on the fresh relay, emitter 1 at its loop head. *)
Definition empty_sequence_schedule (Timeout : Z) : list action :=
  [Deliver (QR [] Timeout); Run 0].

(** The same after a disconnection was handled to the end (invocation 0):
    the emitter (goroutine 2) finds the flag already set. *)
Definition closed_then_empty : world :=
  Eval vm_compute in
    match run [Deliver Disconnected; Run 0; Run 0; Run 0; Run 0; Run 0; Run 0;
               Deliver (QR [] 20); Run 1] fresh with
    | Some w => w
    | None => fresh
    end.

(** *** One emitter, no further event *)

Definition is_delivery (a : action) : bool :=
  match a with Deliver _ => true | _ => false end.

(** Where the only emitter (goroutine 1) of sequence [Codes] can stand when no
    event follows the code sequence: its program counter, the codes it has
    sent so far, what it has done after them, the closed flag, whether the
    stream is closed and whether the disconnect was requested. *)
Inductive emit_phase (Codes : list string) (Timeout : Z)
  : pc -> list string -> list effect -> N -> bool -> bool -> Prop :=
| phase_loop (sent rest : list string) :
    Codes = sent ++ rest ->
    emit_phase Codes Timeout (E_loop rest Timeout) sent [] 0 false false
| phase_send (sent : list string) (nextCode : string) (rest : list string) :
    Codes = sent ++ nextCode :: rest ->
    emit_phase Codes Timeout (E_send nextCode rest Timeout) sent [] 0 false false
| phase_wait (sent rest : list string) :
    Codes = sent ++ rest ->
    emit_phase Codes Timeout (E_wait rest Timeout) sent [] 0 false false
| phase_dropped (sent : list string) (nextCode : string) (rest : list string) :
    Codes = sent ++ nextCode :: rest ->
    emit_phase Codes Timeout Done sent [Dropped 1] 0 false false
| phase_cas :
    emit_phase Codes Timeout E_cas Codes [] 0 false false
| phase_sendTimeout :
    emit_phase Codes Timeout E_sendTimeout Codes [CasWon 1] 1 false false
| phase_closeOutput :
    emit_phase Codes Timeout E_closeOutput Codes
      [CasWon 1; WroteStatus 1 QRChannelTimeout] 1 false false
| phase_disconnect :
    emit_phase Codes Timeout E_disconnect Codes
      [CasWon 1; WroteStatus 1 QRChannelTimeout; OutputClosed 1] 1 true false
| phase_done :
    emit_phase Codes Timeout Done Codes
      [CasWon 1; WroteStatus 1 QRChannelTimeout; OutputClosed 1; DisconnectRequested 1]
      1 true true.

(** The invariant of the runs of one emitter: the emitter is in one of the
    phases above, the trace is the delivery, the spawn, the codes sent and
    the phase's tail, the stream holds in order what was written and not yet
    read, and the stop signal is untouched. *)
Definition emit_inv (cli : Client) (Codes : list string) (Timeout : Z) (w : world) : Prop :=
  (exists (p : pc) (sent : list string) (tail : list effect) (dc : bool),
      emit_phase Codes Timeout p sent tail
        (closed (relay w)) (chclosed (output (relay w))) dc
      /\ threads w = [Done; p]
      /\ trace w = [Delivered 0 (QR Codes Timeout); Spawned 0 1]
                   ++ map (Wrote 1) sent ++ tail
      /\ client w = if dc then Disconnect cli else cli)
  /\ received w ++ buf (output (relay w)) = written (trace w)
  /\ chclosed (stopQRs (relay w)) = false
  /\ crashed w = false
  /\ (sawClosed w = true ->
      buf (output (relay w)) = [] /\ chclosed (output (relay w)) = true).

(** The client as a successful [GetQRChannel] leaves it. *)
Definition subscribed (cli : Client) : Client := fst (AddEventHandler cli).

(** An empty sequence whose emitter has won the compare-and-swap when a
    disconnection is handled to its end; the emitter then finishes. *)
Definition early_unsubscribe_schedule : list action :=
  [ Deliver (QR [] 20); Run 0;
    Run 1; Run 1;                      (* length test, CAS won *)
    Deliver Disconnected;
    Run 2; Run 2; Run 2; Run 2;        (* switch, close stop, CAS lost, remove handler *)
    Run 1; Run 1; Run 1;               (* send timeout, close, disconnect *)
    Receive; Receive ].

(** The position of the first effect of a trace that satisfies [f]. *)
Fixpoint first_index (f : effect -> bool) (tr : list effect) : option nat :=
  match tr with
  | [] => None
  | e :: rest => if f e then Some O else option_map S (first_index f rest)
  end.

(** *** Every schedule: the closed flag and its winner *)

(** A goroutine that has won the compare-and-swap and has not yet sent its
    close value; one that has sent it and has not yet closed the stream. *)
Definition won_pc (p : pc) : nat :=
  match p with H_send _ | E_sendTimeout => 1 | _ => 0 end.

Definition sent_pc (p : pc) : nat :=
  match p with H_closeOutput | E_closeOutput => 1 | _ => 0 end.

Definition total (f : pc -> nat) (ths : list pc) : nat :=
  list_sum (map f ths).

(** The bookkeeping of the closed flag: the flag is the number of
    compare-and-swaps won, which is at most one; a win is either still to
    be followed by its send or has been followed by it; a send of a close
    value is either still to be followed by its close or has been; the
    stream and the stop signal are closed as often as a close succeeded. *)
Definition flag_inv (w : world) : Prop :=
  closed (relay w) = N.of_nat (count_effect is_CasWon (trace w))
  /\ (count_effect is_CasWon (trace w) <= 1)%nat
  /\ count_effect is_CasWon (trace w)
     = (total won_pc (threads w) + count_effect is_WroteStatus (trace w))%nat
  /\ count_effect is_WroteStatus (trace w)
     = (total sent_pc (threads w) + count_effect is_OutputClosed (trace w))%nat
  /\ (if chclosed (output (relay w)) then 1%nat else 0%nat)
     = count_effect is_OutputClosed (trace w)
  /\ (if chclosed (stopQRs (relay w)) then 1%nat else 0%nat)
     = count_effect is_StopClosed (trace w).

(** Who sends and who closes: a goroutine past its compare-and-swap has won
    it; one past its send has sent; and every send of a close value and
    every close of the stream in the trace was made by a goroutine that
    has won, resp. has sent. *)
Definition winner_inv (w : world) : Prop :=
  (forall i p, threads w !! i = Some p ->
               (0 < won_pc p + sent_pc p)%nat -> In (CasWon i) (trace w))
  /\ (forall i p, threads w !! i = Some p ->
                  (0 < sent_pc p)%nat -> exists x, In (WroteStatus i x) (trace w))
  /\ (forall i x, In (WroteStatus i x) (trace w) -> In (CasWon i) (trace w))
  /\ (forall i, In (OutputClosed i) (trace w) -> exists x, In (WroteStatus i x) (trace w)).

(** *** Every schedule: which invocation sends which close value *)

(** What the trace says of goroutine [i] standing at [p]: an invocation of
    the handler was handed the event it switches on, and the close value it
    carries is the specification's for that event; an emitter was never
    handed an event. *)
Definition pc_origin (i : nat) (p : pc) (tr : list effect) : Prop :=
  match p with
  | H_switch rawEvt => In (Delivered i rawEvt) tr
  | H_closeStop outputType | H_cas outputType | H_send outputType =>
      exists rawEvt, In (Delivered i rawEvt) tr /\ spec_terminal rawEvt = Some outputType
  | E_loop _ _ | E_cas | E_sendTimeout | E_closeOutput | E_disconnect
  | E_send _ _ _ | E_wait _ _ =>
      forall rawEvt, ~ In (Delivered i rawEvt) tr
  | H_closeOutput | H_remove | Done | Panicked => True
  end.

Definition origin_inv (w : world) : Prop :=
  (forall i e, In (Delivered i e) (trace w) -> (i < length (threads w))%nat)
  /\ (forall i p, threads w !! i = Some p -> pc_origin i p (trace w))
  /\ (forall i e e', In (Delivered i e) (trace w) -> In (Delivered i e') (trace w) -> e = e')
  /\ (forall i x e, In (WroteStatus i x) (trace w) -> In (Delivered i e) (trace w) ->
                    spec_terminal e = Some x)
  /\ (forall i x, In (WroteStatus i x) (trace w) -> (i < length (threads w))%nat).

(* ===================================================================== *)
(** ** Further readings of a world, for every schedule *)
(* ===================================================================== *)

Definition is_DisconnectRequested (e : effect) : bool :=
  match e with DisconnectRequested _ => true | _ => false end.

(** An emitter that has closed the stream and has yet to call
    [qrc.cli.Disconnect()]. *)
Definition disc_pc (p : pc) : nat :=
  match p with E_disconnect => 1 | _ => 0 end.

(** An invocation of the handler that has closed the stop signal and has yet
    to call [RemoveEventHandler]. *)
Definition past_stop_pc (p : pc) : nat :=
  match p with H_cas _ | H_send _ | H_closeOutput | H_remove => 1 | _ => 0 end.

(** The calls into the client: a disconnect is owed or was requested only
    for a close of the stream, and a removal of the handler is owed or was
    made only for a close of the stop signal. *)
Definition calls_inv (w : world) : Prop :=
  (total disc_pc (threads w) + count_effect is_DisconnectRequested (trace w)
   <= count_effect is_OutputClosed (trace w))%nat
  /\ (total past_stop_pc (threads w) + count_effect is_HandlerRemoved (trace w)
      <= count_effect is_StopClosed (trace w))%nat.

(** Effects by goroutine. *)
Definition closes_output (i : nat) (e : effect) : bool :=
  match e with OutputClosed j => Nat.eqb j i | _ => false end.

Definition requests_disconnect (i : nat) (e : effect) : bool :=
  match e with DisconnectRequested j => Nat.eqb j i | _ => false end.

Definition closes_stop (i : nat) (e : effect) : bool :=
  match e with StopClosed j => Nat.eqb j i | _ => false end.

Definition removes_handler (i : nat) (e : effect) : bool :=
  match e with HandlerRemoved j => Nat.eqb j i | _ => false end.

Definition at_disconnect (p : pc) : bool :=
  match p with E_disconnect => true | _ => false end.

Definition past_stop (p : pc) : bool :=
  match p with H_cas _ | H_send _ | H_closeOutput | H_remove => true | _ => false end.

(** A goroutine at a [stage] has a [cause] of its own in the trace, and so
    has every [result] in the trace. *)
Definition caused_inv (stage : pc -> bool) (cause result : nat -> effect -> bool)
    (w : world) : Prop :=
  (forall i p, threads w !! i = Some p -> stage p = true ->
               exists e, In e (trace w) /\ cause i e = true)
  /\ (forall i e, In e (trace w) -> result i e = true ->
                  exists e', In e' (trace w) /\ cause i e' = true).

(** The stream: what was read and what is buffered is what was written, in
    the order written; the buffer holds at most its seven places; and a
    consumer that has seen the stream closed has emptied it. *)
Definition stream_inv (w : world) : Prop :=
  received w ++ buf (output (relay w)) = written (trace w)
  /\ cap (output (relay w)) = 7%nat
  /\ (length (buf (output (relay w))) <= 7)%nat
  /\ (sawClosed w = true ->
      buf (output (relay w)) = [] /\ chclosed (output (relay w)) = true).

(** A code sequence whose emitter has sent [k] codes and one more, which the
    consumer has read, and waits for that code's validity to end when a
    terminal-causing event is handled to its end (invocation 2); the
    emitter then takes the stop case of its [select], and the consumer
    reads the stream to its end. *)
Definition stop_schedule (k : nat) (rawEvt : event) : list action :=
  emit_schedule 1 k
  ++ [Run 1; Run 1; Receive]
  ++ [Deliver rawEvt; Run 2; Run 2; Run 2; Run 2; Run 2; Run 2;
      Cancel 1; Receive; Receive].

Definition interrupted_schedule (sent : list string) (nextCode : string)
    (rest : list string) (Timeout : Z) (rawEvt : event) : list action :=
  Deliver (QR (sent ++ nextCode :: rest) Timeout) :: Run 0
  :: stop_schedule (length sent) rawEvt.

(** The codes goroutine [i] has sent, in the order sent. *)
Definition written_by (i : nat) (tr : list effect) : list string :=
  omap (fun e => match e with
                 | Wrote j c => if Nat.eqb j i then Some c else None
                 | _ => None
                 end) tr.

(** The codes an emitter still holds, with their validity. *)
Definition pending (p : pc) : option (list string * Z) :=
  match p with
  | E_loop rest Timeout => Some (rest, Timeout)
  | E_send nextCode rest Timeout => Some (nextCode :: rest, Timeout)
  | E_wait rest Timeout => Some (rest, Timeout)
  | _ => None
  end.

(** Every emitter works on the code sequence of a delivered event: what it
    has sent followed by what it still holds is that sequence; and what any
    goroutine has sent is the beginning of a delivered sequence. *)
Definition seq_inv (w : world) : Prop :=
  (forall i c, In (Wrote i c) (trace w) -> (i < length (threads w))%nat)
  /\ (forall i p rest Timeout,
         threads w !! i = Some p -> pending p = Some (rest, Timeout) ->
         exists parent Codes,
           In (Delivered parent (QR Codes Timeout)) (trace w)
           /\ Codes = written_by i (trace w) ++ rest)
  /\ (forall i,
         written_by i (trace w) = []
         \/ exists parent Codes Timeout rest,
              In (Delivered parent (QR Codes Timeout)) (trace w)
              /\ Codes = written_by i (trace w) ++ rest).

(** A pairing success whose invocation has won the compare-and-swap and
    stands at the send of its close value. *)
Definition winner_schedule : list action :=
  [Deliver PairSuccess; Run 0; Run 0; Run 0].

(** The same on the relay whose buffer is full of unread codes ([backlog]):
    invocation 2 stands at its send. *)
Definition backlog_then_success : world :=
  Eval vm_compute in
    match run [Deliver PairSuccess; Run 2; Run 2; Run 2] backlog with
    | Some w => w
    | None => backlog
    end.
(* ===================================================================== *)
(** ** Device.Delete *)
(* ===================================================================== *)

(** C10. [Device.Delete] is atomic with respect to the stored identity.  Let
    the container's [DeleteDevice] leave the container as [c1], the device as
    [d1] and return [e1].  If [e1] is an error, [Delete] returns that very
    error and the device is [d1], identity included: [Delete] wrote nothing
    (so with a container that leaves the identity alone, the identity is the
    one before the call).  If [e1] is nil, [Delete] returns nil and the
    device is [d1] with its [ID] set to nil and every other field kept. *)
Theorem Delete_atomic {C : Type} `{DeviceContainer C}
    (c c1 : C) (device d1 : Device) (e1 : option error) :
  DeleteDevice c device = (c1, d1, e1) ->
  match e1 with
  | Some err =>
      Delete c device = (c1, d1, Some err)
      /\ (ID d1 = ID device -> ID (snd (fst (Delete c device))) = ID device)
  | None =>
      Delete c device = (c1, set_ID None d1, None)
      /\ ID (snd (fst (Delete c device))) = None
      /\ RegistrationID (snd (fst (Delete c device))) = RegistrationID d1
      /\ Platform (snd (fst (Delete c device))) = Platform d1
      /\ BusinessName (snd (fst (Delete c device))) = BusinessName d1
      /\ PushName (snd (fst (Delete c device))) = PushName d1
      /\ Initialized (snd (fst (Delete c device))) = Initialized d1
  end.
Proof.
  intros Hdel. unfold Delete. rewrite Hdel.
  destruct e1 as [err|]; cbn.
  - split; [reflexivity | intros Hid; exact Hid].
  - repeat split.
Qed.

(** The error branch on the in-memory container: a device the container does
    not hold keeps its identity. *)
Lemma Delete_atomic_error_witness :
  Delete (["1234@s.whatsapp.net"] : memContainer)
         (mkDevice 7 (Some "5678@s.whatsapp.net") "android" "" "me" true)
  = (["1234@s.whatsapp.net"],
     mkDevice 7 (Some "5678@s.whatsapp.net") "android" "" "me" true,
     Some (ErrOther "no such device")).
Proof.
  exact (proj1 (Delete_atomic
                  (["1234@s.whatsapp.net"] : memContainer)
                  ["1234@s.whatsapp.net"]
                  (mkDevice 7 (Some "5678@s.whatsapp.net") "android" "" "me" true)
                  (mkDevice 7 (Some "5678@s.whatsapp.net") "android" "" "me" true)
                  (Some (ErrOther "no such device"))
                  eq_refl)).
Defined.

(** The success branch on the in-memory container: the identity is cleared. *)
Lemma Delete_success_example :
  Delete (["1234@s.whatsapp.net"] : memContainer)
         (mkDevice 7 (Some "1234@s.whatsapp.net") "android" "" "me" true)
  = ([], mkDevice 7 None "android" "" "me" true, None).
Proof. reflexivity. Qed.

(* ===================================================================== *)
(** ** GetQRChannel *)
(* ===================================================================== *)

(** C3. [GetQRChannel] fails with [ErrQRAlreadyConnected] when the client is
    connected and, once that check has passed, with [ErrQRStoreContainsID]
    when the store holds an identity; in both cases the stream is nil, no
    relay exists and the client (its handler list included) is untouched.
    Otherwise it returns a stream of capacity 7 with a nil error, and the
    client has exactly one more handler: the relay's, under the token the
    relay keeps; the relay is open and its stream is the returned one. *)
Theorem GetQRChannel_preconditions (cli : Client) :
  (IsConnected cli = true ->
     GetQRChannel cli = ((None, Some ErrQRAlreadyConnected), cli, None))
  /\ (IsConnected cli = false -> ID (Store cli) <> None ->
     GetQRChannel cli = ((None, Some ErrQRStoreContainsID), cli, None))
  /\ (IsConnected cli = false -> ID (Store cli) = None ->
     exists (ch : chan QRChannelItem) (cli' : Client) (qrc : qrChannel),
       GetQRChannel cli = ((Some ch, None), cli', Some qrc)
       /\ ch = make 7
       /\ output qrc = ch
       /\ closed qrc = 0%N
       /\ stopQRs qrc = make 0
       /\ eventHandlers cli' = eventHandlers cli ++ [handlerID qrc]
       /\ isConnected cli' = isConnected cli
       /\ Store cli' = Store cli
       /\ disconnectCalls cli' = disconnectCalls cli).
Proof.
  unfold GetQRChannel. repeat split.
  - intros ->. reflexivity.
  - intros -> Hid. destruct (ID (Store cli)); [reflexivity | contradiction].
  - intros -> ->. cbn. eexists _, _, _. repeat split.
Qed.

(** C9. With the client connected and an identity in the store, the error is
    [ErrQRAlreadyConnected]: the connectivity check comes first. *)
Theorem GetQRChannel_connected_first (cli : Client) :
  IsConnected cli = true ->
  ID (Store cli) <> None ->
  fst (fst (GetQRChannel cli)) = (None, Some ErrQRAlreadyConnected).
Proof.
  intros Hc _. unfold GetQRChannel. rewrite Hc. reflexivity.
Qed.

Lemma GetQRChannel_connected_first_witness :
  fst (fst (GetQRChannel
              (mkClient true (mkDevice 7 (Some "1234@s.whatsapp.net") "" "" "" true) [] 0 0)))
  = (None, Some ErrQRAlreadyConnected).
Proof.
  apply (GetQRChannel_connected_first
           (mkClient true (mkDevice 7 (Some "1234@s.whatsapp.net") "" "" "" true) [] 0 0)).
  - reflexivity.
  - discriminate.
Defined.

(* ===================================================================== *)
(** ** QRChannelItem.IsQR *)
(* ===================================================================== *)

(** [IsQR] is false exactly on the three close values. *)
Lemma IsQR_close_values (qrci : QRChannelItem) :
  IsQR qrci = false
  <-> qrci = QRChannelSuccess \/ qrci = QRChannelTimeout
      \/ qrci = QRChannelErrUnexpectedEvent.
Proof.
  unfold IsQR.
  destruct (String.eqb_spec qrci QRChannelSuccess) as [->|H1]; cbn.
  - split; [intros _; left; reflexivity | reflexivity].
  - destruct (String.eqb_spec qrci QRChannelTimeout) as [->|H2]; cbn.
    + split; [intros _; right; left; reflexivity | reflexivity].
    + destruct (String.eqb_spec qrci QRChannelErrUnexpectedEvent) as [->|H3]; cbn.
      * split; [intros _; right; right; reflexivity | reflexivity].
      * split; [discriminate | intros [?|[?|?]]; contradiction].
Qed.

(* ===================================================================== *)
(** ** Single instructions *)
(* ===================================================================== *)

Lemma run_app (s1 s2 : list action) (w : world) :
  run (s1 ++ s2) w = match run s1 w with Some w' => run s2 w' | None => None end.
Proof.
  revert w. induction s1 as [|a s1 IH]; intros w; cbn; [reflexivity|].
  destruct (step a w); [apply IH | reflexivity].
Qed.

Lemma step_Run (w : world) (i : nat) (p : pc) :
  crashed w = false ->
  threads w !! i = Some p ->
  step (Run i) w = thread_step i p w.
Proof. intros Hc Hi. unfold step. rewrite Hc, Hi. reflexivity. Qed.

Lemma lookup_set_thread (w : world) (i : nat) (p q : pc) :
  threads w !! i = Some p ->
  threads (set_thread i q w) !! i = Some q.
Proof.
  intros Hi. cbn. apply list_lookup_insert_eq. eapply lookup_lt_Some, Hi.
Qed.

Lemma insert_twice (l : list pc) (i : nat) (p q : pc) :
  <[i := q]> (<[i := p]> l) = <[i := q]> l.
Proof. apply list_insert_insert_eq. Qed.

Lemma send_room {A : Type} (c : chan A) (x : A) :
  chclosed c = false ->
  (length (buf c) < cap c)%nat ->
  send c x = SendOk (mkChan (buf c ++ [x]) (cap c) false).
Proof.
  intros Hc Hl. unfold send. rewrite Hc.
  destruct (Nat.ltb_spec (length (buf c)) (cap c)); [reflexivity | lia].
Qed.

Lemma send_full {A : Type} (c : chan A) (x : A) :
  chclosed c = false ->
  (cap c <= length (buf c))%nat ->
  send c x = SendWouldBlock.
Proof.
  intros Hc Hl. unfold send. rewrite Hc.
  destruct (Nat.ltb_spec (length (buf c)) (cap c)); [lia | reflexivity].
Qed.

(** A send cannot complete at once exactly when the channel is open and its
    buffer is full. *)
Lemma send_would_block_iff {A : Type} (c : chan A) (x : A) :
  send c x = SendWouldBlock <-> chclosed c = false /\ (cap c <= length (buf c))%nat.
Proof.
  unfold send. destruct (chclosed c); [split; [discriminate | intros [? _]; discriminate]|].
  destruct (Nat.ltb_spec (length (buf c)) (cap c)); split; try discriminate; try lia; auto.
Qed.

(** *** The instructions of [handleEvent] *)

Section Instructions.
Variables (w : world) (i : nat).
Hypothesis Hlive : crashed w = false.

Lemma step_H_switch_QR (Codes : list string) (Timeout : Z) :
  threads w !! i = Some (H_switch (QR Codes Timeout)) ->
  step (Run i) w =
    Some (emit (Spawned i (length (threads w)))
            (spawn (E_loop Codes Timeout) (set_thread i Done w))).
Proof. intros Hi. rewrite (step_Run w i _ Hlive Hi). reflexivity. Qed.

Lemma step_H_switch_terminal (rawEvt : event) (outputType : QRChannelItem) :
  threads w !! i = Some (H_switch rawEvt) ->
  spec_terminal rawEvt = Some outputType ->
  step (Run i) w = Some (set_thread i (H_closeStop outputType) w).
Proof.
  intros Hi Hs. rewrite (step_Run w i _ Hlive Hi).
  destruct rawEvt; cbn in Hs; try discriminate; injection Hs as <-; reflexivity.
Qed.

Lemma step_H_switch_other (kind : string) :
  threads w !! i = Some (H_switch (OtherEvent kind)) ->
  step (Run i) w = Some (set_thread i Done w).
Proof. intros Hi. rewrite (step_Run w i _ Hlive Hi). reflexivity. Qed.

Lemma step_H_closeStop (outputType : QRChannelItem) :
  threads w !! i = Some (H_closeStop outputType) ->
  chclosed (stopQRs (relay w)) = false ->
  step (Run i) w =
    Some (set_thread i (H_cas outputType)
            (emit (StopClosed i)
               (set_stopQRs (mkChan (buf (stopQRs (relay w))) (cap (stopQRs (relay w))) true) w))).
Proof.
  intros Hi Hs. rewrite (step_Run w i _ Hlive Hi).
  unfold thread_step, close. rewrite Hs. reflexivity.
Qed.

Lemma step_H_closeStop_panic (outputType : QRChannelItem) :
  threads w !! i = Some (H_closeStop outputType) ->
  chclosed (stopQRs (relay w)) = true ->
  step (Run i) w = Some (panic i w).
Proof.
  intros Hi Hs. rewrite (step_Run w i _ Hlive Hi).
  unfold thread_step, close. rewrite Hs. reflexivity.
Qed.

Lemma step_H_cas_won (outputType : QRChannelItem) :
  threads w !! i = Some (H_cas outputType) ->
  closed (relay w) = 0%N ->
  step (Run i) w =
    Some (set_thread i (H_send outputType) (emit (CasWon i) (set_closed 1 w))).
Proof.
  intros Hi Hz. rewrite (step_Run w i _ Hlive Hi).
  unfold thread_step, CompareAndSwapUint32. rewrite Hz. reflexivity.
Qed.

Lemma step_H_cas_lost (outputType : QRChannelItem) :
  threads w !! i = Some (H_cas outputType) ->
  closed (relay w) <> 0%N ->
  step (Run i) w = Some (set_thread i H_remove (emit (CasLost i) w)).
Proof.
  intros Hi Hz. rewrite (step_Run w i _ Hlive Hi).
  unfold thread_step, CompareAndSwapUint32.
  destruct (N.eqb_spec (closed (relay w)) 0); [contradiction | reflexivity].
Qed.

Lemma step_H_send (outputType : QRChannelItem) :
  threads w !! i = Some (H_send outputType) ->
  chclosed (output (relay w)) = false ->
  (length (buf (output (relay w))) < cap (output (relay w)))%nat ->
  step (Run i) w =
    Some (set_thread i H_closeOutput
            (emit (WroteStatus i outputType)
               (set_output (mkChan (buf (output (relay w)) ++ [outputType])
                                   (cap (output (relay w))) false) w))).
Proof.
  intros Hi Ho Hr. rewrite (step_Run w i _ Hlive Hi).
  unfold thread_step. rewrite (send_room _ _ Ho Hr). reflexivity.
Qed.

Lemma step_H_closeOutput :
  threads w !! i = Some H_closeOutput ->
  chclosed (output (relay w)) = false ->
  step (Run i) w =
    Some (set_thread i H_remove
            (emit (OutputClosed i)
               (set_output (mkChan (buf (output (relay w))) (cap (output (relay w))) true) w))).
Proof.
  intros Hi Ho. rewrite (step_Run w i _ Hlive Hi).
  unfold thread_step, close. rewrite Ho. reflexivity.
Qed.

Lemma step_H_remove :
  threads w !! i = Some H_remove ->
  step (Run i) w =
    Some (set_thread i Done
            (emit (HandlerRemoved i)
               (set_client (RemoveEventHandler (client w) (handlerID (relay w))) w))).
Proof. intros Hi. rewrite (step_Run w i _ Hlive Hi). reflexivity. Qed.

(** *** The instructions of [emitQRs] *)

Lemma step_E_loop_empty (Timeout : Z) :
  threads w !! i = Some (E_loop [] Timeout) ->
  step (Run i) w = Some (set_thread i E_cas w).
Proof. intros Hi. rewrite (step_Run w i _ Hlive Hi). reflexivity. Qed.

Lemma step_E_loop_pop (nextCode : string) (rest : list string) (Timeout : Z) :
  threads w !! i = Some (E_loop (nextCode :: rest) Timeout) ->
  step (Run i) w = Some (set_thread i (E_send nextCode rest Timeout) w).
Proof. intros Hi. rewrite (step_Run w i _ Hlive Hi). reflexivity. Qed.

Lemma step_E_cas_won :
  threads w !! i = Some E_cas ->
  closed (relay w) = 0%N ->
  step (Run i) w = Some (set_thread i E_sendTimeout (emit (CasWon i) (set_closed 1 w))).
Proof.
  intros Hi Hz. rewrite (step_Run w i _ Hlive Hi).
  unfold thread_step, CompareAndSwapUint32. rewrite Hz. reflexivity.
Qed.

Lemma step_E_cas_lost :
  threads w !! i = Some E_cas ->
  closed (relay w) <> 0%N ->
  step (Run i) w = Some (set_thread i Done (emit (CasLost i) w)).
Proof.
  intros Hi Hz. rewrite (step_Run w i _ Hlive Hi).
  unfold thread_step, CompareAndSwapUint32.
  destruct (N.eqb_spec (closed (relay w)) 0); [contradiction | reflexivity].
Qed.

Lemma step_E_sendTimeout :
  threads w !! i = Some E_sendTimeout ->
  chclosed (output (relay w)) = false ->
  (length (buf (output (relay w))) < cap (output (relay w)))%nat ->
  step (Run i) w =
    Some (set_thread i E_closeOutput
            (emit (WroteStatus i QRChannelTimeout)
               (set_output (mkChan (buf (output (relay w)) ++ [QRChannelTimeout])
                                   (cap (output (relay w))) false) w))).
Proof.
  intros Hi Ho Hr. rewrite (step_Run w i _ Hlive Hi).
  unfold thread_step. rewrite (send_room _ _ Ho Hr). reflexivity.
Qed.

Lemma step_E_closeOutput :
  threads w !! i = Some E_closeOutput ->
  chclosed (output (relay w)) = false ->
  step (Run i) w =
    Some (set_thread i E_disconnect
            (emit (OutputClosed i)
               (set_output (mkChan (buf (output (relay w))) (cap (output (relay w))) true) w))).
Proof.
  intros Hi Ho. rewrite (step_Run w i _ Hlive Hi).
  unfold thread_step, close. rewrite Ho. reflexivity.
Qed.

Lemma step_E_disconnect :
  threads w !! i = Some E_disconnect ->
  step (Run i) w =
    Some (set_thread i Done
            (emit (DisconnectRequested i) (set_client (Disconnect (client w)) w))).
Proof. intros Hi. rewrite (step_Run w i _ Hlive Hi). reflexivity. Qed.

Lemma step_E_send (nextCode : string) (rest : list string) (Timeout : Z) :
  threads w !! i = Some (E_send nextCode rest Timeout) ->
  chclosed (output (relay w)) = false ->
  (length (buf (output (relay w))) < cap (output (relay w)))%nat ->
  step (Run i) w =
    Some (set_thread i (E_wait rest Timeout)
            (emit (Wrote i nextCode)
               (set_output (mkChan (buf (output (relay w)) ++ [nextCode])
                                   (cap (output (relay w))) false) w))).
Proof.
  intros Hi Ho Hr. rewrite (step_Run w i _ Hlive Hi).
  unfold thread_step. rewrite (send_room _ _ Ho Hr). reflexivity.
Qed.

Lemma step_E_send_full (nextCode : string) (rest : list string) (Timeout : Z) :
  threads w !! i = Some (E_send nextCode rest Timeout) ->
  chclosed (output (relay w)) = false ->
  (cap (output (relay w)) <= length (buf (output (relay w))))%nat ->
  step (Run i) w = Some (set_thread i Done (emit (Dropped i) w)).
Proof.
  intros Hi Ho Hr. rewrite (step_Run w i _ Hlive Hi).
  unfold thread_step. rewrite (send_full _ _ Ho Hr). reflexivity.
Qed.

Lemma step_E_send_closed (nextCode : string) (rest : list string) (Timeout : Z) :
  threads w !! i = Some (E_send nextCode rest Timeout) ->
  chclosed (output (relay w)) = true ->
  step (Run i) w = Some (panic i w).
Proof.
  intros Hi Ho. rewrite (step_Run w i _ Hlive Hi).
  unfold thread_step, send. rewrite Ho. reflexivity.
Qed.

Lemma step_E_wait_timer (rest : list string) (Timeout : Z) :
  threads w !! i = Some (E_wait rest Timeout) ->
  step (Run i) w = Some (set_thread i (E_loop rest Timeout) w).
Proof. intros Hi. rewrite (step_Run w i _ Hlive Hi). reflexivity. Qed.

End Instructions.

(* ===================================================================== *)
(** ** handleEvent, one invocation *)
(* ===================================================================== *)

Ltac side_condition :=
  cbn [crashed relay client threads trace received sawClosed
       closed output stopQRs handlerID buf cap chclosed
       set_thread emit set_closed set_output set_stopQRs set_client];
  first
    [ eassumption
    | reflexivity
    | discriminate
    | apply list_lookup_insert_eq; rewrite ?length_insert;
      eapply lookup_lt_Some; eassumption
    | lia ].

Ltac instr L :=
  cbn [run]; erewrite L by side_condition.

Lemma fresh_is_start : start newClient = Some fresh.
Proof. reflexivity. Qed.

Lemma invoked_is_delivered (rawEvt : event) :
  step (Deliver rawEvt) fresh = Some (invoked rawEvt).
Proof. reflexivity. Qed.

(** One invocation of [handleEvent] run on its own, by event kind. *)
Lemma handleEvent_alone (w : world) (i : nat) (rawEvt : event) :
  crashed w = false ->
  threads w !! i = Some (H_switch rawEvt) ->
  match spec_terminal rawEvt with
  | Some status =>
      chclosed (stopQRs (relay w)) = false ->
      (closed (relay w) = 0%N ->
       chclosed (output (relay w)) = false ->
       (length (buf (output (relay w))) < cap (output (relay w)))%nat ->
       exists w',
         run [Run i; Run i; Run i; Run i; Run i; Run i] w = Some w'
         /\ trace w' = trace w ++ [StopClosed i; CasWon i; WroteStatus i status;
                                   OutputClosed i; HandlerRemoved i]
         /\ output (relay w')
            = mkChan (buf (output (relay w)) ++ [status]) (cap (output (relay w))) true
         /\ closed (relay w') = 1%N
         /\ chclosed (stopQRs (relay w')) = true
         /\ threads w' = <[i := Done]> (threads w)
         /\ client w' = RemoveEventHandler (client w) (handlerID (relay w))
         /\ crashed w' = false)
      /\ (closed (relay w) <> 0%N ->
          exists w',
            run [Run i; Run i; Run i; Run i] w = Some w'
            /\ trace w' = trace w ++ [StopClosed i; CasLost i; HandlerRemoved i]
            /\ output (relay w') = output (relay w)
            /\ closed (relay w') = closed (relay w)
            /\ chclosed (stopQRs (relay w')) = true
            /\ threads w' = <[i := Done]> (threads w)
            /\ client w' = RemoveEventHandler (client w) (handlerID (relay w))
            /\ crashed w' = false)
  | None =>
      exists w',
        step (Run i) w = Some w'
        /\ relay w' = relay w
        /\ client w' = client w
        /\ received w' = received w
        /\ sawClosed w' = sawClosed w
        /\ written (trace w') = written (trace w)
        /\ crashed w' = false
        /\ match rawEvt with
           | QR Codes Timeout =>
               threads w' = <[i := Done]> (threads w) ++ [E_loop Codes Timeout]
               /\ trace w' = trace w ++ [Spawned i (length (threads w))]
           | _ => threads w' = <[i := Done]> (threads w) /\ trace w' = trace w
           end
  end.
Proof.
  intros Hlive Hi.
  destruct (spec_terminal rawEvt) as [status|] eqn:Hspec.
  - intros Hstop. split.
    + intros Hz Ho Hroom. eexists. split.
      * instr (step_H_switch_terminal w i Hlive rawEvt status Hi Hspec).
        instr step_H_closeStop. instr step_H_cas_won.
        instr step_H_send. instr step_H_closeOutput. instr step_H_remove.
        reflexivity.
      * cbn. rewrite !list_insert_insert_eq, <- !app_assoc. cbn. repeat split; assumption.
    + intros Hnz. eexists. split.
      * instr (step_H_switch_terminal w i Hlive rawEvt status Hi Hspec).
        instr step_H_closeStop. instr step_H_cas_lost.
        instr step_H_remove. reflexivity.
      * cbn. rewrite !list_insert_insert_eq, <- !app_assoc. cbn. repeat split; assumption.
  - destruct rawEvt as [Codes Timeout| | | | |kind]; cbn in Hspec; try discriminate.
    + rewrite (step_H_switch_QR w i Hlive _ _ Hi). eexists. split; [reflexivity|].
      cbn. unfold written. rewrite omap_app. cbn. rewrite app_nil_r.
      repeat split; assumption.
    + rewrite (step_H_switch_other w i Hlive _ Hi). eexists. split; [reflexivity|].
      cbn. repeat split; assumption.
Qed.

(* ===================================================================== *)
(** ** emitQRs: the full buffer and the empty sequence *)
(* ===================================================================== *)

Lemma written_app (t1 t2 : list effect) :
  written (t1 ++ t2) = written t1 ++ written t2.
Proof. unfold written. apply omap_app. Qed.

(** C8. The emitter stands at its non-blocking send of a code and the open
    stream's buffer is full: its next instruction is its last.  The relay is
    exactly as before (nothing was queued, the closed flag was neither
    tested nor set, the stream and the stop signal are not closed), the
    client too, no value was written, the only effect is the drop itself,
    and the goroutine has returned: it takes no further instruction. *)
Theorem emitter_stops_on_full_buffer
    (w : world) (i : nat) (nextCode : string) (rest : list string) (Timeout : Z) :
  crashed w = false ->
  threads w !! i = Some (E_send nextCode rest Timeout) ->
  chclosed (output (relay w)) = false ->
  (cap (output (relay w)) <= length (buf (output (relay w))))%nat ->
  exists w',
    step (Run i) w = Some w'
    /\ relay w' = relay w
    /\ client w' = client w
    /\ received w' = received w
    /\ sawClosed w' = sawClosed w
    /\ trace w' = trace w ++ [Dropped i]
    /\ written (trace w') = written (trace w)
    /\ threads w' = <[i := Done]> (threads w)
    /\ crashed w' = false
    /\ step (Run i) w' = None
    /\ step (Cancel i) w' = None.
Proof.
  intros Hlive Hi Ho Hfull.
  rewrite (step_E_send_full w i Hlive _ _ _ Hi Ho Hfull).
  eexists. split; [reflexivity|].
  assert (Hd : <[i := Done]> (threads w) !! i = Some Done).
  { apply list_lookup_insert_eq. eapply lookup_lt_Some, Hi. }
  cbn. rewrite written_app, app_nil_r.
  repeat split; try assumption.
  - unfold step. cbn. rewrite Hlive, Hd. reflexivity.
  - unfold step. cbn. rewrite Hlive, Hd. reflexivity.
Qed.

Lemma backlog_reached : run backlog_schedule fresh = Some backlog.
Proof. vm_compute. reflexivity. Qed.

(** The eighth code of a sequence nobody reads. *)
Lemma emitter_stops_on_full_buffer_witness :
  exists w',
    step (Run 1) backlog = Some w'
    /\ relay w' = relay backlog
    /\ client w' = client backlog
    /\ received w' = received backlog
    /\ sawClosed w' = sawClosed backlog
    /\ trace w' = trace backlog ++ [Dropped 1]
    /\ written (trace w') = written (trace backlog)
    /\ threads w' = <[1%nat := Done]> (threads backlog)
    /\ crashed w' = false
    /\ step (Run 1) w' = None
    /\ step (Cancel 1) w' = None.
Proof.
  apply (emitter_stops_on_full_buffer backlog 1 "8" [] 20).
  - reflexivity.
  - reflexivity.
  - reflexivity.
  - cbn. lia.
Defined.

(** The emitter at an empty sequence with the flag at 0. *)
Lemma emitter_exhausted_won (w : world) (i : nat) (Timeout : Z) :
  crashed w = false ->
  threads w !! i = Some (E_loop [] Timeout) ->
  closed (relay w) = 0%N ->
  chclosed (output (relay w)) = false ->
  (length (buf (output (relay w))) < cap (output (relay w)))%nat ->
  exists w',
    run [Run i; Run i; Run i; Run i; Run i] w = Some w'
    /\ trace w' = trace w ++ [CasWon i; WroteStatus i QRChannelTimeout;
                              OutputClosed i; DisconnectRequested i]
    /\ written (trace w') = written (trace w) ++ [QRChannelTimeout]
    /\ output (relay w')
       = mkChan (buf (output (relay w)) ++ [QRChannelTimeout]) (cap (output (relay w))) true
    /\ closed (relay w') = 1%N
    /\ stopQRs (relay w') = stopQRs (relay w)
    /\ client w' = Disconnect (client w)
    /\ threads w' = <[i := Done]> (threads w)
    /\ received w' = received w
    /\ crashed w' = false.
Proof.
  intros Hlive Hi Hz Ho Hroom. eexists. split.
  - instr step_E_loop_empty. instr step_E_cas_won. instr step_E_sendTimeout.
    instr step_E_closeOutput. instr step_E_disconnect. reflexivity.
  - cbn. rewrite !list_insert_insert_eq, <- !app_assoc. cbn.
    rewrite written_app. cbn. repeat split; assumption.
Qed.

(** The emitter at an empty sequence with the flag already set. *)
Lemma emitter_exhausted_lost (w : world) (i : nat) (Timeout : Z) :
  crashed w = false ->
  threads w !! i = Some (E_loop [] Timeout) ->
  closed (relay w) <> 0%N ->
  exists w',
    run [Run i; Run i] w = Some w'
    /\ trace w' = trace w ++ [CasLost i]
    /\ written (trace w') = written (trace w)
    /\ relay w' = relay w
    /\ client w' = client w
    /\ threads w' = <[i := Done]> (threads w)
    /\ received w' = received w
    /\ crashed w' = false.
Proof.
  intros Hlive Hi Hnz. eexists. split.
  - instr step_E_loop_empty. instr step_E_cas_lost. reflexivity.
  - cbn. rewrite !list_insert_insert_eq. rewrite written_app, app_nil_r.
    repeat split; assumption.
Qed.

(* ===================================================================== *)
(** ** emitQRs: a whole sequence with no further event *)
(* ===================================================================== *)

Lemma written_map_Wrote (i : nat) (l : list string) : written (map (Wrote i) l) = l.
Proof. induction l as [|x l IH]; cbn; [reflexivity|]. unfold written in IH. rewrite IH. reflexivity. Qed.

Ltac inv_parts := split; [ | split; [ | split; [ | split ]]].

Ltac stream H :=
  rewrite ?written_app, ?written_map_Wrote; cbn; rewrite ?app_nil_r;
  rewrite ?app_nil_r in H;
  first [ exact H
        | rewrite app_assoc, H, <- ?app_assoc; reflexivity
        | rewrite <- app_assoc; exact H ].

Ltac phase_by C :=
  eexists _, _, _, _; split; [ C | split; [ reflexivity | split; reflexivity ] ].

Lemma emit_inv_step (cli : Client) (Codes : list string) (Timeout : Z)
    (a : action) (w w' : world) :
  emit_inv cli Codes Timeout w ->
  is_delivery a = false ->
  step a w = Some w' ->
  emit_inv cli Codes Timeout w'.
Proof.
  intros (Hph & Hstream & Hstop & Hlive & Hsaw) Hd Hstep.
  destruct Hph as (p & sent & tail & dc & Hphase & Hth & Htr & Hcli).
  destruct w as [[hid cl [ob ocap ocl] [sb scap scl]] c ths tr rcv sc cr].
  cbn [relay client threads trace received sawClosed crashed closed output stopQRs
       handlerID buf cap chclosed] in *.
  subst cr ths tr c scl.
  rewrite !written_app, written_map_Wrote in Hstream. cbn in Hstream.
  unfold step in Hstep. cbn in Hstep.
  destruct a as [e|i|i|]; [discriminate| | |].
  - (* a goroutine runs *)
    destruct i as [|[|i]]; cbn in Hstep; [discriminate| |discriminate].
    inversion Hphase; subst; cbn -[Nat.ltb] in Hstep;
      cbn in Hstream; rewrite ?app_nil_r in Hstream.
    + (* the length test and the pop *)
      destruct rest as [|nextCode rest]; injection Hstep as <-.
      * rewrite app_nil_r. inv_parts; cbn; try assumption.
        -- phase_by ltac:(apply phase_cas).
        -- stream Hstream.
      * inv_parts; cbn; try assumption.
        -- phase_by ltac:(apply phase_send; reflexivity).
        -- stream Hstream.
    + (* the send of a code *)
      unfold send in Hstep. cbn -[Nat.ltb] in Hstep.
      destruct (length ob <? ocap)%nat; injection Hstep as <-.
      * inv_parts; cbn; try assumption.
        -- exists (E_wait rest Timeout), (sent ++ [nextCode]), [], false.
           split; [apply phase_wait; rewrite <- app_assoc; reflexivity|].
           split; [reflexivity|]. split; [|reflexivity].
           rewrite map_app, <- !app_assoc. reflexivity.
        -- stream Hstream.
        -- intros Hs. destruct (Hsaw Hs) as [_ ?]; discriminate.
      * inv_parts; cbn; try assumption.
        -- exists Done, sent, [Dropped 1], false.
           split; [eapply phase_dropped; reflexivity|].
           split; [reflexivity|]. split; [|reflexivity].
           rewrite <- !app_assoc. reflexivity.
        -- stream Hstream.
    + (* the timer *)
      injection Hstep as <-. inv_parts; cbn; try assumption.
      * phase_by ltac:(apply phase_loop; reflexivity).
      * stream Hstream.
    + discriminate.
    + (* the compare-and-swap *)
      injection Hstep as <-. inv_parts; cbn; try assumption.
      * exists E_sendTimeout, sent, [CasWon 1], false.
        split; [apply phase_sendTimeout|]. split; [reflexivity|]. split; [|reflexivity].
        rewrite <- !app_assoc. reflexivity.
      * stream Hstream.
    + (* the send of the timeout *)
      unfold send in Hstep. cbn -[Nat.ltb] in Hstep.
      destruct (length ob <? ocap)%nat; [|discriminate]. injection Hstep as <-.
      inv_parts; cbn; try assumption.
      * exists E_closeOutput, sent, [CasWon 1; WroteStatus 1 QRChannelTimeout], false.
        split; [apply phase_closeOutput|]. split; [reflexivity|]. split; [|reflexivity].
        rewrite <- !app_assoc. reflexivity.
      * stream Hstream.
      * intros Hs. destruct (Hsaw Hs) as [_ ?]; discriminate.
    + (* the close *)
      injection Hstep as <-. inv_parts; cbn; try assumption.
      * exists E_disconnect, sent,
          [CasWon 1; WroteStatus 1 QRChannelTimeout; OutputClosed 1], false.
        split; [apply phase_disconnect|]. split; [reflexivity|]. split; [|reflexivity].
        rewrite <- !app_assoc. reflexivity.
      * stream Hstream.
      * intros Hs. destruct (Hsaw Hs) as [_ ?]; discriminate.
    + (* the disconnect *)
      injection Hstep as <-. inv_parts; cbn; try assumption.
      * exists Done, sent,
          [CasWon 1; WroteStatus 1 QRChannelTimeout; OutputClosed 1; DisconnectRequested 1],
          true.
        split; [apply phase_done|]. split; [reflexivity|]. split; [|reflexivity].
        rewrite <- !app_assoc. reflexivity.
      * stream Hstream.
    + discriminate.
  - (* the stop case of the emitter's select: the signal is not closed *)
    destruct i as [|[|i]]; cbn in Hstep; [discriminate| |discriminate].
    destruct p; try discriminate. unfold recv in Hstep. cbn in Hstep.
    destruct sb; discriminate.
  - (* the consumer reads *)
    unfold consume, recv in Hstep. cbn in Hstep.
    destruct ob as [|x ob].
    + destruct ocl; [|discriminate]. injection Hstep as <-.
      inv_parts; cbn; try assumption.
      * exists p, sent, tail, dc. repeat split; assumption.
      * stream Hstream.
      * intros _. split; reflexivity.
    + injection Hstep as <-. inv_parts; cbn; try assumption.
      * exists p, sent, tail, dc. repeat split; assumption.
      * stream Hstream.
      * intros Hs. destruct (Hsaw Hs) as [? _]; discriminate.
Qed.


Lemma emit_inv_run (cli : Client) (Codes : list string) (Timeout : Z)
    (sch : list action) (w w' : world) :
  emit_inv cli Codes Timeout w ->
  Forall (fun a => is_delivery a = false) sch ->
  run sch w = Some w' ->
  emit_inv cli Codes Timeout w'.
Proof.
  intros Hinv Hsch. revert w Hinv.
  induction Hsch as [|a sch Ha _ IH]; intros w Hinv Hrun; cbn in Hrun.
  - injection Hrun as <-. exact Hinv.
  - destruct (step a w) as [w1|] eqn:Hstep; [|discriminate].
    apply (IH w1); [|exact Hrun].
    exact (emit_inv_step cli Codes Timeout a w w1 Hinv Ha Hstep).
Qed.

(** The world in which the handler has just started the emitter. *)
Lemma emitter_started (cli : Client) (Codes : list string) (Timeout : Z) :
  IsConnected cli = false ->
  ID (Store cli) = None ->
  exec cli [Deliver (QR Codes Timeout); Run 0]
  = Some (mkWorld (mkQRChannel (snd (AddEventHandler cli)) 0 (make 7) (make 0))
            (subscribed cli) [Done; E_loop Codes Timeout]
            [Delivered 0 (QR Codes Timeout); Spawned 0 1] [] false false).
Proof.
  intros Hc Hid. unfold exec, start, GetQRChannel. rewrite Hc, Hid. reflexivity.
Qed.

Lemma emit_inv_started (cli : Client) (Codes : list string) (Timeout : Z) :
  emit_inv (subscribed cli) Codes Timeout
    (mkWorld (mkQRChannel (snd (AddEventHandler cli)) 0 (make 7) (make 0))
       (subscribed cli) [Done; E_loop Codes Timeout]
       [Delivered 0 (QR Codes Timeout); Spawned 0 1] [] false false).
Proof.
  inv_parts; cbn; try reflexivity.
  - exists (E_loop Codes Timeout), [], [], false.
    split; [apply phase_loop; reflexivity|]. repeat split.
  - discriminate.
Qed.

(** What the invariant says of the stream. *)
Lemma emit_inv_stream (cli : Client) (Codes : list string) (Timeout : Z) (w : world) :
  emit_inv cli Codes Timeout w ->
  (exists rest, Codes ++ [QRChannelTimeout] = written (trace w) ++ rest)
  /\ (exists rest, written (trace w) = received w ++ rest)
  /\ crashed w = false
  /\ (sawClosed w = true -> received w = Codes ++ [QRChannelTimeout])
  /\ (threads w !! 1%nat = Some Done ->
      ~ In (Dropped 1) (trace w) ->
      written (trace w) = Codes ++ [QRChannelTimeout]
      /\ chclosed (output (relay w)) = true
      /\ closed (relay w) = 1%N
      /\ client w = Disconnect cli).
Proof.
  intros (Hph & Hstream & Hstop & Hlive & Hsaw).
  destruct Hph as (p & sent & tail & dc & Hphase & Hth & Htr & Hcli).
  assert (Hw : written (trace w) = sent ++ written tail).
  { rewrite Htr, !written_app, written_map_Wrote. reflexivity. }
  split; [|split; [|split; [exact Hlive|split]]].
  - rewrite Hw. inversion Hphase; subst; cbn; eexists;
      rewrite <- ?app_assoc; cbn; reflexivity.
  - exists (buf (output (relay w))). symmetry. exact Hstream.
  - intros Hs. destruct (Hsaw Hs) as [Hb Hcl].
    rewrite Hb, app_nil_r in Hstream. rewrite Hstream, Hw.
    inversion Hphase; subst; try congruence; reflexivity.
  - intros Hdone Hnd. rewrite Hth in Hdone. cbn in Hdone. injection Hdone as ->.
    rewrite Hw. inversion Hphase; subst.
    + exfalso. apply Hnd. rewrite Htr. rewrite !in_app_iff. right. right. left. reflexivity.
    + cbn in *. repeat split; congruence.
Qed.

(** One loop turn: the code is popped, sent, read, and its validity ends. *)
Lemma one_code_run (nextCode : string) (rest : list string) (Timeout : Z) (hid : N)
    (stop : chan unit) (c : Client) (tr : list effect) (rcv : list QRChannelItem)
    (sc : bool) :
  run [Run 1; Run 1; Receive; Run 1]
      (mkWorld (mkQRChannel hid 0 (make 7) stop) c
               [Done; E_loop (nextCode :: rest) Timeout] tr rcv sc false)
  = Some (mkWorld (mkQRChannel hid 0 (make 7) stop) c [Done; E_loop rest Timeout]
                  (tr ++ [Wrote 1 nextCode]) (rcv ++ [nextCode]) sc false).
Proof. reflexivity. Qed.

(** The loop turns of the schedule in which the consumer reads each code. *)
Lemma emit_schedule_run (Codes : list string) (Timeout : Z) (hid : N)
    (stop : chan unit) (c : Client) (tr : list effect) (rcv : list QRChannelItem)
    (sc : bool) :
  run (emit_schedule 1 (length Codes))
      (mkWorld (mkQRChannel hid 0 (make 7) stop) c [Done; E_loop Codes Timeout]
               tr rcv sc false)
  = Some (mkWorld (mkQRChannel hid 0 (make 7) stop) c [Done; E_loop [] Timeout]
                  (tr ++ map (Wrote 1) Codes) (rcv ++ Codes) sc false).
Proof.
  revert tr rcv. induction Codes as [|nextCode rest IH]; intros tr rcv.
  - cbn. rewrite !app_nil_r. reflexivity.
  - cbn [length emit_schedule].
    change (run (Run 1 :: Run 1 :: Receive :: Run 1 :: emit_schedule 1 (length rest)) ?w)
      with (run ([Run 1; Run 1; Receive; Run 1] ++ emit_schedule 1 (length rest)) w).
    rewrite run_app, one_code_run, IH. cbn. rewrite <- !app_assoc. reflexivity.
Qed.

Lemma exhaust_schedule_run (Timeout : Z) (hid : N) (c : Client)
    (tr : list effect) (rcv : list QRChannelItem) :
  run (exhaust_schedule 1)
      (mkWorld (mkQRChannel hid 0 (make 7) (make 0)) c [Done; E_loop [] Timeout]
               tr rcv false false)
  = Some (mkWorld (mkQRChannel hid 1 (mkChan [] 7 true) (make 0)) (Disconnect c)
                  [Done; Done]
                  (tr ++ [CasWon 1; WroteStatus 1 QRChannelTimeout;
                          OutputClosed 1; DisconnectRequested 1])
                  (rcv ++ [QRChannelTimeout]) true false).
Proof. cbn. rewrite <- !app_assoc. reflexivity. Qed.

Lemma drain_schedule_run (cli : Client) (Codes : list string) (Timeout : Z) :
  IsConnected cli = false ->
  ID (Store cli) = None ->
  exec cli (drain_schedule Codes Timeout)
  = Some (mkWorld (mkQRChannel (snd (AddEventHandler cli)) 1 (mkChan [] 7 true) (make 0))
            (Disconnect (subscribed cli)) [Done; Done]
            ([Delivered 0 (QR Codes Timeout); Spawned 0 1]
             ++ map (Wrote 1) Codes
             ++ [CasWon 1; WroteStatus 1 QRChannelTimeout;
                 OutputClosed 1; DisconnectRequested 1])
            (Codes ++ [QRChannelTimeout]) true false).
Proof.
  intros Hc Hid.
  pose proof (emitter_started cli Codes Timeout Hc Hid) as Hs.
  unfold exec in *. destruct (start cli) as [w0|]; [|discriminate].
  unfold drain_schedule.
  change (Deliver (QR Codes Timeout) :: Run 0
          :: emit_schedule 1 (length Codes) ++ exhaust_schedule 1)
    with ([Deliver (QR Codes Timeout); Run 0]
          ++ emit_schedule 1 (length Codes) ++ exhaust_schedule 1).
  rewrite run_app, Hs, run_app, emit_schedule_run, exhaust_schedule_run.
  rewrite <- !app_assoc. reflexivity.
Qed.

Lemma drain_schedule_local (Codes : list string) (Timeout : Z) :
  Forall (fun a => is_delivery a = false)
         (emit_schedule 1 (length Codes) ++ exhaust_schedule 1).
Proof.
  apply Forall_app. split.
  - induction (length Codes) as [|n IH]; cbn; [constructor|].
    repeat (constructor; [reflexivity|]). exact IH.
  - repeat constructor.
Qed.

(** C5. A sequence of N codes of validity [Timeout] is delivered to the relay
    that [GetQRChannel] returned, and no other event follows.
    - When the consumer keeps reading ([drain_schedule]: it reads each code
      before the next one is due), the emitter writes the N codes in their
      order, then the timeout, closes the stream and requests a disconnect;
      the consumer has read exactly the codes followed by the timeout and
      has seen the stream closed.
    - Whatever the interleaving of the emitter, the timers and the consumer
      (any schedule without a further delivery): the values written are at
      every moment a prefix of the codes followed by the timeout, the
      consumer has read a prefix of them, nothing panics; a consumer that
      has seen the stream closed has read exactly the codes followed by the
      timeout; and once the emitter has returned without having dropped a
      code on a full buffer, it has written exactly the codes followed by
      the timeout, the stream is closed and the disconnect was requested. *)
Theorem emitter_delivers_all_codes (cli : Client) (Codes : list string) (Timeout : Z) :
  IsConnected cli = false ->
  ID (Store cli) = None ->
  (exists w,
      exec cli (drain_schedule Codes Timeout) = Some w
      /\ written (trace w) = Codes ++ [QRChannelTimeout]
      /\ received w = Codes ++ [QRChannelTimeout]
      /\ sawClosed w = true
      /\ chclosed (output (relay w)) = true
      /\ client w = Disconnect (subscribed cli)
      /\ disconnectCalls (client w) = S (disconnectCalls cli)
      /\ threads w = [Done; Done]
      /\ crashed w = false)
  /\ (forall (sch : list action) (w : world),
        Forall (fun a => is_delivery a = false) sch ->
        exec cli (Deliver (QR Codes Timeout) :: Run 0 :: sch) = Some w ->
        (exists rest, Codes ++ [QRChannelTimeout] = written (trace w) ++ rest)
        /\ (exists rest, written (trace w) = received w ++ rest)
        /\ crashed w = false
        /\ (sawClosed w = true -> received w = Codes ++ [QRChannelTimeout])
        /\ (threads w !! 1%nat = Some Done ->
            ~ In (Dropped 1) (trace w) ->
            written (trace w) = Codes ++ [QRChannelTimeout]
            /\ chclosed (output (relay w)) = true
            /\ closed (relay w) = 1%N
            /\ client w = Disconnect (subscribed cli))).
Proof.
  intros Hc Hid. split.
  - eexists. split; [exact (drain_schedule_run cli Codes Timeout Hc Hid)|].
    cbn. rewrite !written_app, written_map_Wrote. cbn. repeat split.
  - intros sch w Hsch Hexec.
    apply (emit_inv_stream (subscribed cli) Codes Timeout).
    pose proof (emitter_started cli Codes Timeout Hc Hid) as Hs.
    unfold exec in *. destruct (start cli) as [w0|]; [|discriminate].
    change (Deliver (QR Codes Timeout) :: Run 0 :: sch)
      with ([Deliver (QR Codes Timeout); Run 0] ++ sch) in Hexec.
    rewrite run_app, Hs in Hexec.
    exact (emit_inv_run _ _ _ sch _ w (emit_inv_started cli Codes Timeout) Hsch Hexec).
Qed.

(** The scenario of the specification: two codes, validity 20. *)
Lemma emitter_delivers_all_codes_witness :
  exists w,
    exec newClient (drain_schedule ["1@ABC"; "2@DEF"] 20) = Some w
    /\ written (trace w) = ["1@ABC"; "2@DEF"; QRChannelTimeout]
    /\ received w = ["1@ABC"; "2@DEF"; QRChannelTimeout]
    /\ sawClosed w = true
    /\ chclosed (output (relay w)) = true
    /\ client w = Disconnect (subscribed newClient)
    /\ disconnectCalls (client w) = 1%nat
    /\ threads w = [Done; Done]
    /\ crashed w = false.
Proof.
  exact (proj1 (emitter_delivers_all_codes newClient ["1@ABC"; "2@DEF"] 20
                  eq_refl eq_refl)).
Defined.

(* ===================================================================== *)
(** ** emitQRs: the empty sequence *)
(* ===================================================================== *)

(** C6. The emitter at an empty code sequence.
    - In any world, with the closed flag at 0 (and room in the open stream
      for the send), the emitter wins the compare-and-swap, sends the
      timeout, closes the stream and requests the client's disconnect, in
      this order, and returns; it does not touch the stop signal.  With the
      flag already set it loses the compare-and-swap and returns: nothing is
      written, the relay and the client are as before.
    - A sequence that is empty from the start, on the relay that
      [GetQRChannel] returned, with no other event: the stream carries the
      timeout and nothing else (no code is ever written), it is closed, and
      one disconnect was requested. *)
Theorem emitter_empty_sequence :
  (forall (w : world) (i : nat) (Timeout : Z),
      crashed w = false ->
      threads w !! i = Some (E_loop [] Timeout) ->
      (closed (relay w) = 0%N ->
       chclosed (output (relay w)) = false ->
       (length (buf (output (relay w))) < cap (output (relay w)))%nat ->
       exists w',
         run [Run i; Run i; Run i; Run i; Run i] w = Some w'
         /\ trace w' = trace w ++ [CasWon i; WroteStatus i QRChannelTimeout;
                                   OutputClosed i; DisconnectRequested i]
         /\ written (trace w') = written (trace w) ++ [QRChannelTimeout]
         /\ output (relay w')
            = mkChan (buf (output (relay w)) ++ [QRChannelTimeout])
                     (cap (output (relay w))) true
         /\ closed (relay w') = 1%N
         /\ stopQRs (relay w') = stopQRs (relay w)
         /\ client w' = Disconnect (client w)
         /\ threads w' = <[i := Done]> (threads w)
         /\ received w' = received w
         /\ crashed w' = false)
      /\ (closed (relay w) <> 0%N ->
          exists w',
            run [Run i; Run i] w = Some w'
            /\ trace w' = trace w ++ [CasLost i]
            /\ written (trace w') = written (trace w)
            /\ relay w' = relay w
            /\ client w' = client w
            /\ threads w' = <[i := Done]> (threads w)
            /\ received w' = received w
            /\ crashed w' = false))
  /\ (forall (cli : Client) (Timeout : Z),
        IsConnected cli = false ->
        ID (Store cli) = None ->
        exists w,
          exec cli (drain_schedule [] Timeout) = Some w
          /\ trace w = [Delivered 0 (QR [] Timeout); Spawned 0 1; CasWon 1;
                        WroteStatus 1 QRChannelTimeout; OutputClosed 1;
                        DisconnectRequested 1]
          /\ written (trace w) = [QRChannelTimeout]
          /\ received w = [QRChannelTimeout]
          /\ sawClosed w = true
          /\ chclosed (output (relay w)) = true
          /\ disconnectCalls (client w) = S (disconnectCalls cli)
          /\ crashed w = false).
Proof.
  split.
  - intros w i Timeout Hlive Hi. split.
    + exact (emitter_exhausted_won w i Timeout Hlive Hi).
    + exact (emitter_exhausted_lost w i Timeout Hlive Hi).
  - intros cli Timeout Hc Hid. eexists.
    split; [exact (drain_schedule_run cli [] Timeout Hc Hid)|].
    cbn. repeat split.
Qed.

(** The emitter of an empty sequence after a disconnection was handled. *)
Lemma emitter_empty_sequence_witness :
  exists w',
    run [Run 2; Run 2] closed_then_empty = Some w'
    /\ trace w' = trace closed_then_empty ++ [CasLost 2]
    /\ written (trace w') = written (trace closed_then_empty)
    /\ relay w' = relay closed_then_empty
    /\ client w' = client closed_then_empty
    /\ threads w' = <[2%nat := Done]> (threads closed_then_empty)
    /\ received w' = received closed_then_empty
    /\ crashed w' = false.
Proof.
  apply (proj2 (proj1 emitter_empty_sequence closed_then_empty 2%nat 20%Z
                  eq_refl eq_refl)).
  discriminate.
Defined.

(* ===================================================================== *)
(** ** The races between the handler and the emitter *)
(* ===================================================================== *)

(** C1, at the failing input.  Two codes and a pairing success.  With the
    emitter's send of the second code between the handler's send of the
    status and its close of the stream, the stream carries the second code
    after the status: the consumer reads the first code, "success", the
    second code, and then sees the stream closed.  With the handler's close
    first, the emitter's send finds the stream closed: the program panics. *)
Theorem code_written_after_status :
  (exists w,
      exec newClient late_code_schedule = Some w
      /\ written (trace w) = ["1@ABC"; QRChannelSuccess; "2@DEF"]
      /\ received w = ["1@ABC"; QRChannelSuccess; "2@DEF"]
      /\ sawClosed w = true
      /\ crashed w = false)
  /\ (exists w,
        exec newClient send_on_closed_schedule = Some w
        /\ crashed w = true
        /\ last (trace w) = Some (Panic 1)
        /\ threads w !! 1%nat = Some Panicked).
Proof.
  split; eexists; (split; [vm_compute; reflexivity|]); vm_compute; repeat split.
Qed.

(** The second [close(qrc.stopQRs)] of a relay's life panics, whatever else
    the world holds. *)
Lemma second_stop_close_panics (w : world) (i : nat) (outputType : QRChannelItem) :
  crashed w = false ->
  threads w !! i = Some (H_closeStop outputType) ->
  chclosed (stopQRs (relay w)) = true ->
  step (Run i) w = Some (panic i w).
Proof. intros Hlive Hi Hs. exact (step_H_closeStop_panic w i Hlive outputType Hi Hs). Qed.

(** C2, at the failing input.  For every two terminal-causing events handed
    to the handler while it is subscribed, the second invocation panics at
    [close(qrc.stopQRs)]: when the first invocation has run to its end, and
    also when the two run in step (then no close value is written at all). *)
Theorem second_terminal_event_panics (first second : event) :
  match spec_terminal first, spec_terminal second with
  | Some status, Some _ =>
      (exists w,
          exec newClient (two_terminal_schedule first second) = Some w
          /\ crashed w = true
          /\ last (trace w) = Some (Panic 1)
          /\ written (trace w) = [status]
          /\ count_effect is_StopClosed (trace w) = 1%nat)
      /\ (exists w,
            exec newClient (two_terminal_interleaved first second) = Some w
            /\ crashed w = true
            /\ last (trace w) = Some (Panic 1)
            /\ written (trace w) = [])
  | _, _ => True
  end.
Proof.
  destruct first, second; cbn [spec_terminal]; try exact I;
    (split; eexists; (split; [vm_compute; reflexivity|]); vm_compute; repeat split).
Qed.

(** Whatever the code sequence, when the emitter runs out of codes and the
    consumer has read the stream to its end, every goroutine has returned
    and [RemoveEventHandler] was never called: the handler is still on the
    client's list. *)
Lemma exhausted_emitter_keeps_handler (cli : Client) (Codes : list string) (Timeout : Z) :
  IsConnected cli = false ->
  ID (Store cli) = None ->
  exists w,
    exec cli (drain_schedule Codes Timeout) = Some w
    /\ threads w = [Done; Done]
    /\ sawClosed w = true
    /\ eventHandlers (client w) = eventHandlers cli ++ [handlerID (relay w)]
    /\ count_effect is_HandlerRemoved (trace w) = 0%nat.
Proof.
  intros Hc Hid. eexists.
  split; [exact (drain_schedule_run cli Codes Timeout Hc Hid)|].
  cbn. repeat split.
  unfold count_effect. rewrite List.filter_app. cbn.
  induction Codes as [|c Codes IH]; [reflexivity | exact IH].
Qed.

Lemma exhausted_emitter_keeps_handler_witness :
  exists w,
    exec newClient (drain_schedule ["1@ABC"] 20) = Some w
    /\ threads w = [Done; Done]
    /\ sawClosed w = true
    /\ eventHandlers (client w) = eventHandlers newClient ++ [handlerID (relay w)]
    /\ count_effect is_HandlerRemoved (trace w) = 0%nat.
Proof.
  exact (exhausted_emitter_keeps_handler newClient ["1@ABC"] 20 eq_refl eq_refl).
Defined.

(** C7, at the failing inputs.
    - The emitter runs out of codes: the timeout is written, the stream is
      closed and read to its end, every goroutine has returned, and the
      handler was never removed: it is still on the bus.
    - The emitter has won the compare-and-swap and a disconnection is
      handled before it sends: the handler is removed before the close value
      is written. *)
Theorem exhausted_emitter_stays_subscribed :
  (exists w,
      exec newClient (drain_schedule ["1@ABC"; "2@DEF"] 20) = Some w
      /\ written (trace w) = ["1@ABC"; "2@DEF"; QRChannelTimeout]
      /\ sawClosed w = true
      /\ threads w = [Done; Done]
      /\ eventHandlers (client w) = [handlerID (relay w)]
      /\ count_effect is_HandlerRemoved (trace w) = 0%nat)
  /\ (exists w,
        exec newClient early_unsubscribe_schedule = Some w
        /\ crashed w = false
        /\ sawClosed w = true
        /\ first_index is_HandlerRemoved (trace w) = Some 6%nat
        /\ first_index is_WroteStatus (trace w) = Some 7%nat).
Proof.
  split; eexists; (split; [vm_compute; reflexivity|]); vm_compute; repeat split.
Qed.

(* ===================================================================== *)
(** ** Every schedule: one winner of the closed flag *)
(* ===================================================================== *)

Lemma count_effect_app (f : effect -> bool) (t1 t2 : list effect) :
  count_effect f (t1 ++ t2) = (count_effect f t1 + count_effect f t2)%nat.
Proof. unfold count_effect. rewrite List.filter_app, length_app. reflexivity. Qed.

Lemma total_app (f : pc -> nat) (l1 l2 : list pc) :
  total f (l1 ++ l2) = (total f l1 + total f l2)%nat.
Proof. unfold total. rewrite map_app, list_sum_app. reflexivity. Qed.

Lemma total_cons (f : pc -> nat) (p : pc) (l : list pc) :
  total f (p :: l) = (f p + total f l)%nat.
Proof. reflexivity. Qed.

Lemma total_insert (f : pc -> nat) (ths : list pc) (i : nat) (p q : pc) :
  ths !! i = Some p ->
  (total f (<[i := q]> ths) + f p = total f ths + f q)%nat.
Proof.
  revert i. induction ths as [|a ths IH]; intros i Hi; [discriminate|].
  destruct i as [|i].
  - injection Hi as ->. change (<[0%nat := q]> (p :: ths)) with (q :: ths).
    rewrite !total_cons. lia.
  - change (<[S i := q]> (a :: ths)) with (a :: <[i := q]> ths).
    rewrite !total_cons. specialize (IH i Hi). lia.
Qed.

Lemma total_nil (f : pc -> nat) : total f [] = 0%nat.
Proof. reflexivity. Qed.

(** Taking a step apart. *)
Ltac step_inv H :=
  unfold thread_step, CompareAndSwapUint32, send, close in H;
  repeat match type of H with
         | context [match ?x with _ => _ end] =>
             lazymatch x with
             | context [match _ with _ => _ end] => fail
             | _ => destruct x eqn:?
             end
         end;
  try discriminate H;
  injection H as <-.

Ltac world_facts :=
  repeat match goal with
         | H : (_ =? _)%N = true |- _ => apply N.eqb_eq in H
         | H : (_ =? _)%N = false |- _ => apply N.eqb_neq in H
         | H : chclosed ?c = _, H' : context [chclosed ?c] |- _ =>
             lazymatch H' with H => fail | _ => rewrite H in H' end
         | H : chclosed ?c = _ |- context [chclosed ?c] => rewrite H
         end.

Lemma flag_inv_thread_step (w w' : world) (i : nat) (p : pc) :
  flag_inv w ->
  threads w !! i = Some p ->
  thread_step i p w = Some w' ->
  flag_inv w'.
Proof.
  intros (Hcl & Hle & Hwon & Hsent & Hout & Hstop) Hi Hstep.
  pose proof (total_insert won_pc (threads w) i p) as Tw.
  pose proof (total_insert sent_pc (threads w) i p) as Ts.
  destruct p; step_inv Hstep;
  unfold flag_inv; cbn [relay client threads trace closed output stopQRs chclosed
         set_thread emit set_closed set_output set_stopQRs set_client spawn panic];
  rewrite ?count_effect_app, ?total_app, ?total_cons, ?total_nil;
  cbn [count_effect List.filter length is_CasWon is_WroteStatus is_OutputClosed
       is_StopClosed won_pc sent_pc];
  try match goal with
      | |- context [total won_pc (insert _ ?q (threads w))] =>
          specialize (Tw q Hi); specialize (Ts q Hi); cbn [won_pc sent_pc] in Tw, Ts
      end;
  world_facts; try (repeat split; lia).
Qed.

Lemma flag_inv_step (a : action) (w w' : world) :
  flag_inv w -> step a w = Some w' -> flag_inv w'.
Proof.
  intros Hinv Hstep. unfold step in Hstep.
  destruct (crashed w); [discriminate|].
  destruct a as [e|i|i|].
  - injection Hstep as <-. destruct Hinv as (Hcl & Hle & Hwon & Hsent & Hout & Hstop).
    unfold flag_inv; cbn [relay client threads trace closed output stopQRs chclosed
                          emit spawn].
    rewrite ?count_effect_app, ?total_app, ?total_cons, ?total_nil.
    cbn [count_effect List.filter length is_CasWon is_WroteStatus is_OutputClosed
         is_StopClosed won_pc sent_pc].
    repeat split; lia.
  - destruct (threads w !! i) as [p|] eqn:Hi; [|discriminate].
    exact (flag_inv_thread_step w w' i p Hinv Hi Hstep).
  - destruct (threads w !! i) as [p|] eqn:Hi; [|discriminate].
    destruct p; try discriminate.
    destruct (recv (stopQRs (relay w))); try discriminate.
    injection Hstep as <-. destruct Hinv as (Hcl & Hle & Hwon & Hsent & Hout & Hstop).
    pose proof (total_insert won_pc (threads w) i _ Done Hi) as Tw.
    pose proof (total_insert sent_pc (threads w) i _ Done Hi) as Ts.
    unfold flag_inv; cbn [relay client threads trace closed output stopQRs chclosed
                          set_thread emit].
    rewrite ?count_effect_app.
    cbn [count_effect List.filter length is_CasWon is_WroteStatus is_OutputClosed
         is_StopClosed won_pc sent_pc] in *.
    repeat split; lia.
  - unfold consume, recv in Hstep.
    destruct Hinv as (Hcl & Hle & Hwon & Hsent & Hout & Hstop).
    destruct (buf (output (relay w))) as [|x rest].
    + destruct (chclosed (output (relay w))) eqn:Ho; [|discriminate].
      injection Hstep as <-. unfold flag_inv. cbn. rewrite Ho. repeat split; assumption.
    + injection Hstep as <-. unfold flag_inv.
      cbn [relay client threads trace closed output stopQRs chclosed].
      repeat split; assumption.
Qed.

Lemma winner_inv_update (w w' : world) (i : nat) (p p' : pc)
    (es : list effect) (extra : list pc) :
  winner_inv w ->
  threads w !! i = Some p ->
  threads w' = <[i := p']> (threads w) ++ extra ->
  trace w' = trace w ++ es ->
  ((0 < won_pc p' + sent_pc p')%nat ->
   (0 < won_pc p + sent_pc p)%nat \/ In (CasWon i) es) ->
  ((0 < sent_pc p')%nat ->
   (0 < sent_pc p)%nat \/ exists x, In (WroteStatus i x) es) ->
  (forall j x, In (WroteStatus j x) es -> j = i /\ (0 < won_pc p + sent_pc p)%nat) ->
  (forall j, In (OutputClosed j) es ->
             j = i /\ ((0 < sent_pc p)%nat \/ exists x, In (WroteStatus i x) es)) ->
  (forall q, In q extra -> (won_pc q + sent_pc q = 0)%nat) ->
  winner_inv w'.
Proof.
  intros (C1 & C2 & C3 & C4) Hi Hth Htr S1 S2 S3 S4 S5.
  assert (Hlook : forall j q, threads w' !! j = Some q ->
            (j = i /\ q = p') \/ (j <> i /\ threads w !! j = Some q) \/ In q extra).
  { intros j q Hj. rewrite Hth in Hj. apply lookup_app_Some in Hj.
    destruct Hj as [Hj|[_ Hj]].
    - apply list_lookup_insert_Some in Hj.
      destruct Hj as [(-> & -> & _)|[Hne Hj]]; [left; split; reflexivity|].
      right. left. split; [congruence | exact Hj].
    - right. right. apply list_elem_of_In. eapply list_elem_of_lookup_2, Hj. }
  unfold winner_inv. rewrite Htr. repeat split.
  - intros j q Hj Hpos. apply in_or_app.
    destruct (Hlook j q Hj) as [[-> ->]|[[_ Hq]|Hq]].
    + destruct (S1 Hpos) as [Hp|He]; [left; exact (C1 i p Hi Hp) | right; exact He].
    + left. exact (C1 j q Hq Hpos).
    + specialize (S5 q Hq). lia.
  - intros j q Hj Hpos.
    destruct (Hlook j q Hj) as [[-> ->]|[[_ Hq]|Hq]].
    + destruct (S2 Hpos) as [Hp|[x He]].
      * destruct (C2 i p Hi Hp) as [x Hx]. exists x. apply in_or_app. left. exact Hx.
      * exists x. apply in_or_app. right. exact He.
    + destruct (C2 j q Hq Hpos) as [x Hx]. exists x. apply in_or_app. left. exact Hx.
    + specialize (S5 q Hq). lia.
  - intros j x Hin. apply in_or_app. apply in_app_or in Hin.
    destruct Hin as [Hin|Hin]; [left; exact (C3 j x Hin)|].
    destruct (S3 j x Hin) as [-> Hp]. left. exact (C1 i p Hi Hp).
  - intros j Hin. apply in_app_or in Hin.
    destruct Hin as [Hin|Hin].
    + destruct (C4 j Hin) as [x Hx]. exists x. apply in_or_app. left. exact Hx.
    + destruct (S4 j Hin) as [-> [Hp|[x Hx]]].
      * destruct (C2 i p Hi Hp) as [x Hx]. exists x. apply in_or_app. left. exact Hx.
      * exists x. apply in_or_app. right. exact Hx.
Qed.

Ltac in_singleton :=
  repeat match goal with
         | H : In _ [] |- _ => destruct H
         | H : In _ (_ :: _) |- _ => destruct H as [H|H]; [try discriminate H|]
         | H : _ \/ _ |- _ => destruct H
         | H : WroteStatus _ _ = WroteStatus _ _ |- _ => injection H as <- <-
         | H : OutputClosed _ = OutputClosed _ |- _ => injection H as <-
         end.

Ltac winner_side :=
  cbn [won_pc sent_pc Nat.add];
  first
    [ lia
    | intros; lia
    | intros _; right; left; reflexivity
    | intros _; right; eexists; left; reflexivity
    | intros; in_singleton; subst; cbn [won_pc sent_pc Nat.add];
      first [ lia | split; [reflexivity | first [lia | left; lia | right; eexists; left; reflexivity]] ] ].

Lemma winner_inv_thread_step (w w' : world) (i : nat) (p : pc) :
  winner_inv w ->
  threads w !! i = Some p ->
  thread_step i p w = Some w' ->
  winner_inv w'.
Proof.
  intros Hinv Hi Hstep.
  destruct p; step_inv Hstep;
    (eapply (winner_inv_update w _ i _ _ _ _ Hinv Hi);
     [ cbn [threads set_thread emit set_closed set_output set_stopQRs set_client spawn panic];
       first [ reflexivity | symmetry; apply app_nil_r ]
     | cbn [trace set_thread emit set_closed set_output set_stopQRs set_client spawn panic];
       first [ reflexivity | symmetry; apply app_nil_r ]
     | winner_side .. ]).
Qed.

Lemma winner_inv_step (a : action) (w w' : world) :
  winner_inv w -> step a w = Some w' -> winner_inv w'.
Proof.
  intros Hinv Hstep. unfold step in Hstep.
  destruct (crashed w); [discriminate|].
  destruct a as [e|i|i|].
  - injection Hstep as <-. destruct Hinv as (C1 & C2 & C3 & C4).
    unfold winner_inv. cbn [threads trace emit spawn]. repeat split.
    + intros j q Hj Hpos. apply in_or_app. left.
      apply lookup_app_Some in Hj. destruct Hj as [Hj|[_ Hj]]; [exact (C1 j q Hj Hpos)|].
      destruct (j - length (threads w))%nat; cbn in Hj; [|discriminate].
      injection Hj as <-. cbn in Hpos. lia.
    + intros j q Hj Hpos.
      apply lookup_app_Some in Hj. destruct Hj as [Hj|[_ Hj]].
      * destruct (C2 j q Hj Hpos) as [x Hx]. exists x. apply in_or_app. left. exact Hx.
      * destruct (j - length (threads w))%nat; cbn in Hj; [|discriminate].
        injection Hj as <-. cbn in Hpos. lia.
    + intros j x Hin. apply in_or_app. left. apply in_app_or in Hin.
      destruct Hin as [Hin|Hin]; [exact (C3 j x Hin)|]. in_singleton.
    + intros j Hin. apply in_app_or in Hin.
      destruct Hin as [Hin|Hin]; [|in_singleton].
      destruct (C4 j Hin) as [x Hx]. exists x. apply in_or_app. left. exact Hx.
  - destruct (threads w !! i) as [p|] eqn:Hi; [|discriminate].
    exact (winner_inv_thread_step w w' i p Hinv Hi Hstep).
  - destruct (threads w !! i) as [p|] eqn:Hi; [|discriminate].
    destruct p; try discriminate.
    destruct (recv (stopQRs (relay w))); try discriminate.
    injection Hstep as <-.
    eapply (winner_inv_update w _ i _ _ _ _ Hinv Hi);
     [ cbn [threads set_thread emit]; symmetry; apply app_nil_r
     | cbn [trace set_thread emit]; reflexivity
     | winner_side .. ].
  - unfold consume in Hstep.
    destruct (recv (output (relay w))); try discriminate; injection Hstep as <-;
      exact Hinv.
Qed.

Lemma start_invariants (cli : Client) (w : world) :
  start cli = Some w -> flag_inv w /\ winner_inv w /\ trace w = [] /\ threads w = [].
Proof.
  unfold start, GetQRChannel. intros Hs.
  destruct (IsConnected cli); [discriminate|].
  destruct (ID (Store cli)); [discriminate|].
  cbn in Hs. injection Hs as <-. split; [|split; [|split; reflexivity]].
  - unfold flag_inv. cbn. repeat split; lia.
  - unfold winner_inv. cbn. split; [|split; [|split]].
    + intros j p Hj. destruct j; discriminate.
    + intros j p Hj. destruct j; discriminate.
    + intros j x [].
    + intros j [].
Qed.

Lemma invariants_run (sch : list action) (w w' : world) :
  flag_inv w -> winner_inv w -> run sch w = Some w' -> flag_inv w' /\ winner_inv w'.
Proof.
  revert w. induction sch as [|a sch IH]; intros w Hf Hw Hrun; cbn in Hrun.
  - injection Hrun as <-. split; assumption.
  - destruct (step a w) as [w1|] eqn:Hstep; [|discriminate].
    apply (IH w1); [ exact (flag_inv_step a w w1 Hf Hstep)
                   | exact (winner_inv_step a w w1 Hw Hstep)
                   | exact Hrun ].
Qed.

(** A step appends at most one effect to the trace. *)
Lemma step_trace (a : action) (w w' : world) :
  step a w = Some w' ->
  trace w' = trace w \/ exists e, trace w' = trace w ++ [e].
Proof.
  intros Hstep. unfold step in Hstep.
  destruct (crashed w); [discriminate|].
  destruct a as [e|i|i|].
  - injection Hstep as <-. right. eexists. reflexivity.
  - destruct (threads w !! i) as [p|]; [|discriminate].
    destruct p; step_inv Hstep; cbn; first [ left; reflexivity | right; eexists; reflexivity ].
  - destruct (threads w !! i) as [p|]; [|discriminate].
    destruct p; try discriminate.
    destruct (recv (stopQRs (relay w))); try discriminate.
    injection Hstep as <-. right. eexists. reflexivity.
  - unfold consume in Hstep.
    destruct (recv (output (relay w))); try discriminate; injection Hstep as <-;
      left; reflexivity.
Qed.

Lemma run_trace_extends (sch : list action) (w w' : world) :
  run sch w = Some w' -> exists k, trace w' = trace w ++ k.
Proof.
  revert w. induction sch as [|a sch IH]; intros w Hrun; cbn in Hrun.
  - injection Hrun as <-. exists []. rewrite app_nil_r. reflexivity.
  - destruct (step a w) as [w1|] eqn:Hstep; [|discriminate].
    destruct (IH w1 Hrun) as [k Hk].
    destruct (step_trace a w w1 Hstep) as [Ht|[e Ht]]; rewrite Hk, Ht.
    + exists k. reflexivity.
    + exists (e :: k). rewrite <- app_assoc. reflexivity.
Qed.

(** Every prefix of a run's trace is the trace of an earlier world of the
    run. *)
Lemma prefix_reachable (sch : list action) (w w' : world) (l1 l2 : list effect) :
  run sch w = Some w' ->
  trace w' = l1 ++ l2 ->
  (length (trace w) <= length l1)%nat ->
  exists sch1 w1, run sch1 w = Some w1 /\ trace w1 = l1.
Proof.
  revert w. induction sch as [|a sch IH]; intros w Hrun Htr Hlen; cbn in Hrun.
  - injection Hrun as <-. exists [], w. split; [reflexivity|].
    assert (l2 = []) as ->.
    { apply (f_equal (@length effect)) in Htr. rewrite length_app in Htr.
      destruct l2; [reflexivity | cbn in Htr; lia]. }
    rewrite app_nil_r in Htr. exact Htr.
  - destruct (step a w) as [w1|] eqn:Hstep; [|discriminate].
    destruct (Nat.le_gt_cases (length (trace w1)) (length l1)) as [Hle|Hgt].
    + destruct (IH w1 Hrun Htr Hle) as (sch1 & w2 & Hrun1 & Ht).
      exists (a :: sch1), w2. split; [|exact Ht]. cbn. rewrite Hstep. exact Hrun1.
    + exists [], w. split; [reflexivity|].
      destruct (run_trace_extends sch w1 w' Hrun) as [k Hk].
      destruct (step_trace a w w1 Hstep) as [Ht|[e Ht]]; rewrite Ht in *.
      * lia.
      * rewrite length_app in Hgt. cbn in Hgt.
        rewrite Htr, <- app_assoc in Hk.
        apply app_inj_1 in Hk; [|lia]. symmetry. exact (proj1 Hk).
Qed.

Lemma count_effect_unique (f : effect -> bool) (tr : list effect) (a b : effect) :
  (count_effect f tr <= 1)%nat ->
  In a tr -> In b tr -> f a = true -> f b = true -> a = b.
Proof.
  unfold count_effect. induction tr as [|e tr IH]; intros Hle Ha Hb Hfa Hfb; [destruct Ha|].
  cbn in Hle. destruct (f e) eqn:Hfe.
  - cbn in Hle.
    assert (Hnone : forall c, In c tr -> f c = true -> False).
    { intros c Hc Hfc.
      assert (In c (List.filter f tr)) as Hin by (apply List.filter_In; split; assumption).
      destruct (List.filter f tr); [destruct Hin | cbn in Hle; lia]. }
    destruct Ha as [<-|Ha]; destruct Hb as [<-|Hb]; try reflexivity.
    + exfalso. exact (Hnone b Hb Hfb).
    + exfalso. exact (Hnone a Ha Hfa).
    + exfalso. exact (Hnone a Ha Hfa).
  - destruct Ha as [<-|Ha]; [congruence|].
    destruct Hb as [<-|Hb]; [congruence|].
    exact (IH Hle Ha Hb Hfa Hfb).
Qed.

(** For every schedule of handler invocations, emitters, timers and reads,
    after [GetQRChannel]: the compare-and-swap of the closed flag is won at
    most once; a close value is sent at most once and the stream is closed
    at most once, each only by the goroutine that won, and in the order
    win, send, close; the stop signal is closed at most once. *)
Theorem closed_flag_single_winner (cli : Client) (sch : list action) (w : world) :
  exec cli sch = Some w ->
  (count_effect is_CasWon (trace w) <= 1)%nat
  /\ (count_effect is_WroteStatus (trace w) <= count_effect is_CasWon (trace w))%nat
  /\ (count_effect is_OutputClosed (trace w) <= count_effect is_WroteStatus (trace w))%nat
  /\ (count_effect is_StopClosed (trace w) <= 1)%nat
  /\ closed (relay w) = N.of_nat (count_effect is_CasWon (trace w))
  /\ (forall i j, In (CasWon i) (trace w) -> In (CasWon j) (trace w) -> i = j)
  /\ (forall l1 i x l2, trace w = l1 ++ WroteStatus i x :: l2 -> In (CasWon i) l1)
  /\ (forall l1 i l2, trace w = l1 ++ OutputClosed i :: l2 ->
                      exists x, In (WroteStatus i x) l1).
Proof.
  unfold exec. intros Hexec.
  destruct (start cli) as [w0|] eqn:Hstart; [|discriminate].
  destruct (start_invariants cli w0 Hstart) as (Hf0 & Hw0 & Ht0 & _).
  destruct (invariants_run sch w0 w Hf0 Hw0 Hexec) as [Hf Hw].
  destruct Hf as (Hcl & Hle & Hwon & Hsent & Hout & Hstop).
  repeat split; try lia; try assumption.
  - destruct (chclosed (stopQRs (relay w))); lia.
  - intros i j Hi Hj.
    assert (CasWon i = CasWon j) as Heq
      by (apply (count_effect_unique is_CasWon (trace w)); auto).
    injection Heq as ->. reflexivity.
  - intros l1 i x l2 Htr.
    destruct (prefix_reachable sch w0 w (l1 ++ [WroteStatus i x]) l2 Hexec)
      as (sch1 & w1 & Hrun1 & Ht1).
    { rewrite <- app_assoc. exact Htr. }
    { rewrite Ht0. cbn. lia. }
    destruct (invariants_run sch1 w0 w1 Hf0 Hw0 Hrun1) as [_ (_ & _ & C3 & _)].
    specialize (C3 i x). rewrite Ht1 in C3.
    assert (Hlast : In (WroteStatus i x) (l1 ++ [WroteStatus i x]))
      by (apply in_or_app; right; left; reflexivity).
    destruct (in_app_or _ _ _ (C3 Hlast)) as [Hin|Hin]; [exact Hin|]. in_singleton.
  - intros l1 i l2 Htr.
    destruct (prefix_reachable sch w0 w (l1 ++ [OutputClosed i]) l2 Hexec)
      as (sch1 & w1 & Hrun1 & Ht1).
    { rewrite <- app_assoc. exact Htr. }
    { rewrite Ht0. cbn. lia. }
    destruct (invariants_run sch1 w0 w1 Hf0 Hw0 Hrun1) as [_ (_ & _ & _ & C4)].
    specialize (C4 i). rewrite Ht1 in C4.
    assert (Hlast : In (OutputClosed i) (l1 ++ [OutputClosed i]))
      by (apply in_or_app; right; left; reflexivity).
    destruct (C4 Hlast) as [x Hx].
    exists x. destruct (in_app_or _ _ _ Hx) as [Hin|Hin]; [exact Hin|]. in_singleton.
Qed.

(** The race of [late_code_schedule]: one winner, one status, one close. *)
Lemma closed_flag_single_winner_witness :
  exists w,
    exec newClient late_code_schedule = Some w
    /\ (count_effect is_CasWon (trace w) <= 1)%nat
    /\ (count_effect is_WroteStatus (trace w) <= count_effect is_CasWon (trace w))%nat
    /\ (count_effect is_OutputClosed (trace w) <= count_effect is_WroteStatus (trace w))%nat
    /\ (count_effect is_StopClosed (trace w) <= 1)%nat.
Proof.
  eexists. split; [vm_compute; reflexivity|].
  match goal with
  | |- context [trace ?w] =>
      assert (Hexec : exec newClient late_code_schedule = Some w)
        by (vm_compute; reflexivity);
      pose proof (closed_flag_single_winner newClient late_code_schedule w Hexec) as H
  end.
  repeat split; apply H.
Defined.

(* ===================================================================== *)
(** ** Every schedule: the close value of an invocation *)
(* ===================================================================== *)

Lemma pc_origin_mono (i : nat) (p : pc) (tr es : list effect) :
  (forall j e, ~ In (Delivered j e) es) ->
  pc_origin i p tr -> pc_origin i p (tr ++ es).
Proof.
  intros Hes. destruct p; cbn; try exact (fun H => H).
  - intros H. apply in_or_app. left. exact H.
  - intros (e & He & Hs). exists e. split; [apply in_or_app; left; exact He | exact Hs].
  - intros (e & He & Hs). exists e. split; [apply in_or_app; left; exact He | exact Hs].
  - intros (e & He & Hs). exists e. split; [apply in_or_app; left; exact He | exact Hs].
  - intros H e Hin. apply in_app_or in Hin. destruct Hin as [Hin|Hin];
      [exact (H e Hin) | exact (Hes i e Hin)].
  - intros H e Hin. apply in_app_or in Hin. destruct Hin as [Hin|Hin];
      [exact (H e Hin) | exact (Hes i e Hin)].
  - intros H e Hin. apply in_app_or in Hin. destruct Hin as [Hin|Hin];
      [exact (H e Hin) | exact (Hes i e Hin)].
  - intros H e Hin. apply in_app_or in Hin. destruct Hin as [Hin|Hin];
      [exact (H e Hin) | exact (Hes i e Hin)].
  - intros H e Hin. apply in_app_or in Hin. destruct Hin as [Hin|Hin];
      [exact (H e Hin) | exact (Hes i e Hin)].
  - intros H e Hin. apply in_app_or in Hin. destruct Hin as [Hin|Hin];
      [exact (H e Hin) | exact (Hes i e Hin)].
  - intros H e Hin. apply in_app_or in Hin. destruct Hin as [Hin|Hin];
      [exact (H e Hin) | exact (Hes i e Hin)].
Qed.

Lemma origin_inv_update (w w' : world) (i : nat) (p p' : pc)
    (es : list effect) (extra : list pc) :
  origin_inv w ->
  threads w !! i = Some p ->
  threads w' = <[i := p']> (threads w) ++ extra ->
  trace w' = trace w ++ es ->
  (forall j e, ~ In (Delivered j e) es) ->
  (pc_origin i p (trace w) -> pc_origin i p' (trace w)) ->
  (forall j x, In (WroteStatus j x) es -> j = i /\ (p = H_send x \/ p = E_sendTimeout)) ->
  (extra = [] \/ exists Codes Timeout, extra = [E_loop Codes Timeout]) ->
  origin_inv w'.
Proof.
  intros (O1 & O2 & O3 & O4 & O5) Hi Hth Htr Hes Hpc Hws Hextra.
  assert (Hlen : (length (threads w) <= length (threads w'))%nat).
  { rewrite Hth, length_app, length_insert. lia. }
  assert (Hdel : forall j e, In (Delivered j e) (trace w') -> In (Delivered j e) (trace w)).
  { intros j e Hin. rewrite Htr in Hin. apply in_app_or in Hin.
    destruct Hin as [Hin|Hin]; [exact Hin | destruct (Hes j e Hin)]. }
  unfold origin_inv. split; [|split; [|split; [|split]]].
  - intros j e Hin. specialize (O1 j e (Hdel j e Hin)). lia.
  - intros j q Hj. rewrite Htr. rewrite Hth in Hj. apply lookup_app_Some in Hj.
    destruct Hj as [Hj|[Hge Hj]].
    + apply pc_origin_mono; [exact Hes|].
      apply list_lookup_insert_Some in Hj.
      destruct Hj as [(-> & -> & _)|[Hne Hj]].
      * exact (Hpc (O2 _ p Hi)).
      * exact (O2 j q Hj).
    + destruct Hextra as [->|(Codes & Timeout & ->)]; [destruct (j - _)%nat; discriminate|].
      rewrite length_insert in Hge, Hj.
      destruct (j - length (threads w))%nat; cbn in Hj; [|discriminate].
      injection Hj as <-. cbn. intros e Hin.
      apply in_app_or in Hin. destruct Hin as [Hin|Hin]; [|exact (Hes j e Hin)].
      specialize (O1 j e Hin). lia.
  - intros j e e' H1 H2. exact (O3 j e e' (Hdel j e H1) (Hdel j e' H2)).
  - intros j x e Hw Hd. apply Hdel in Hd. rewrite Htr in Hw. apply in_app_or in Hw.
    destruct Hw as [Hw|Hw]; [exact (O4 j x e Hw Hd)|].
    destruct (Hws j x Hw) as [-> [->| ->]].
    + destruct (O2 i _ Hi) as (e0 & He0 & Hs0). rewrite (O3 i e e0 Hd He0). exact Hs0.
    + destruct (O2 i _ Hi e Hd).
  - intros j x Hw. rewrite Htr in Hw. apply in_app_or in Hw.
    destruct Hw as [Hw|Hw]; [specialize (O5 j x Hw); lia|].
    destruct (Hws j x Hw) as [-> _]. apply lookup_lt_Some in Hi. lia.
Qed.

Ltac origin_side :=
  first
    [ solve [ unfold not; intros; in_singleton ]
    | solve [ right; eexists _, _; reflexivity ]
    | solve [ left; reflexivity ]
    | solve [ intros; in_singleton; split;
              [ reflexivity | first [ left; reflexivity | right; reflexivity ] ] ]
    | solve [ cbn [pc_origin];
              first [ exact (fun H => H)
                    | exact (fun _ => I)
                    | intros H; eexists; split; [ exact H | reflexivity ] ] ] ].

Lemma origin_inv_thread_step (w w' : world) (i : nat) (p : pc) :
  origin_inv w ->
  threads w !! i = Some p ->
  thread_step i p w = Some w' ->
  origin_inv w'.
Proof.
  intros Hinv Hi Hstep.
  destruct p; step_inv Hstep;
    (eapply (origin_inv_update w _ i _ _ _ _ Hinv Hi);
     [ cbn [threads set_thread emit set_closed set_output set_stopQRs set_client spawn panic];
       first [ reflexivity | symmetry; apply app_nil_r ]
     | cbn [trace set_thread emit set_closed set_output set_stopQRs set_client spawn panic];
       first [ reflexivity | symmetry; apply app_nil_r ]
     | origin_side .. ]).
Qed.

Lemma origin_inv_step (a : action) (w w' : world) :
  origin_inv w -> step a w = Some w' -> origin_inv w'.
Proof.
  intros Hinv Hstep. unfold step in Hstep.
  destruct (crashed w); [discriminate|].
  destruct a as [e|i|i|].
  - injection Hstep as <-. destruct Hinv as (O1 & O2 & O3 & O4 & O5).
    unfold origin_inv. cbn [threads trace emit spawn].
    rewrite length_app. cbn [length].
    split; [|split; [|split; [|split]]].
    + intros j e' Hin. apply in_app_or in Hin. destruct Hin as [Hin|Hin].
      * specialize (O1 j e' Hin). lia.
      * in_singleton. injection Hin as <- <-. lia.
    + intros j q Hj. apply lookup_app_Some in Hj. destruct Hj as [Hj|[Hge Hj]].
      * pose proof (lookup_lt_Some _ _ _ Hj) as Hlt.
        specialize (O2 j q Hj). destruct q; cbn in *;
          try exact I;
          try (apply in_or_app; left; exact O2);
          try (destruct O2 as (e0 & He0 & Hs0); exists e0;
               split; [apply in_or_app; left; exact He0 | exact Hs0]);
          (intros e' Hin; apply in_app_or in Hin; destruct Hin as [Hin|Hin];
           [ exact (O2 e' Hin) | in_singleton; injection Hin as <- <-; lia ]).
      * destruct (j - length (threads w))%nat eqn:Hsub; cbn in Hj; [|discriminate].
        injection Hj as <-. cbn. apply in_or_app. right. left.
        f_equal. lia.
    + intros j e1 e2 H1 H2. apply in_app_or in H1. apply in_app_or in H2.
      destruct H1 as [H1|H1]; destruct H2 as [H2|H2].
      * exact (O3 j e1 e2 H1 H2).
      * in_singleton. injection H2 as <- <-. specialize (O1 _ _ H1). lia.
      * in_singleton. injection H1 as <- <-. specialize (O1 _ _ H2). lia.
      * in_singleton. injection H1 as <- <-. injection H2 as <-. reflexivity.
    + intros j x e' Hw Hd. apply in_app_or in Hw. destruct Hw as [Hw|Hw]; [|in_singleton].
      apply in_app_or in Hd. destruct Hd as [Hd|Hd]; [exact (O4 j x e' Hw Hd)|].
      in_singleton. injection Hd as <- <-. specialize (O5 _ _ Hw). lia.
    + intros j x Hw. apply in_app_or in Hw. destruct Hw as [Hw|Hw]; [|in_singleton].
      specialize (O5 j x Hw). lia.
  - destruct (threads w !! i) as [p|] eqn:Hi; [|discriminate].
    exact (origin_inv_thread_step w w' i p Hinv Hi Hstep).
  - destruct (threads w !! i) as [p|] eqn:Hi; [|discriminate].
    destruct p; try discriminate.
    destruct (recv (stopQRs (relay w))); try discriminate.
    injection Hstep as <-.
    eapply (origin_inv_update w _ i _ _ _ _ Hinv Hi);
     [ cbn [threads set_thread emit]; symmetry; apply app_nil_r
     | cbn [trace set_thread emit]; reflexivity
     | origin_side .. ].
  - unfold consume in Hstep.
    destruct (recv (output (relay w))); try discriminate; injection Hstep as <-;
      exact Hinv.
Qed.

Lemma origin_inv_start (cli : Client) (w : world) :
  start cli = Some w -> origin_inv w.
Proof.
  unfold start, GetQRChannel. intros Hs.
  destruct (IsConnected cli); [discriminate|].
  destruct (ID (Store cli)); [discriminate|].
  cbn in Hs. injection Hs as <-.
  unfold origin_inv. cbn. split; [|split; [|split; [|split]]].
  - intros j e [].
  - intros j p Hj. destruct j; discriminate.
  - intros j e e' [].
  - intros j x e [].
  - intros j x [].
Qed.

Lemma origin_inv_run (sch : list action) (w w' : world) :
  origin_inv w -> run sch w = Some w' -> origin_inv w'.
Proof.
  revert w. induction sch as [|a sch IH]; intros w Hinv Hrun; cbn in Hrun.
  - injection Hrun as <-. exact Hinv.
  - destruct (step a w) as [w1|] eqn:Hstep; [|discriminate].
    exact (IH w1 (origin_inv_step a w w1 Hinv Hstep) Hrun).
Qed.

(** C4. The close value [handleEvent] sends is determined by the kind of the
    event ([spec_terminal]: success for a pairing success, timeout for a
    disconnection, unexpected-event for an already-connected or a
    connect-failure event, none otherwise).
    - One invocation, standing at its type switch with event [rawEvt] in any
      world and run on its own.  For a terminal-causing event on a relay
      whose stop signal is not yet closed: with the closed flag at 0 the
      invocation closes the stop signal, wins the compare-and-swap, sends
      exactly that close value, closes the stream and removes the handler,
      in this order; with the flag already set it closes the stop signal,
      loses the compare-and-swap, sends nothing and removes the handler.
      For a code sequence it starts an emitter on the sequence and returns:
      it writes nothing and leaves relay and client as they were.  For any
      other event it returns with no effect at all.
    - Every schedule after [GetQRChannel]: whenever the invocation that was
      handed [rawEvt] has sent a close value, that value is the one of
      [rawEvt]'s kind; so an invocation for a code sequence or for any
      other event never sends one. *)
Theorem handleEvent_by_kind :
  (forall (w : world) (i : nat) (rawEvt : event),
      crashed w = false ->
      threads w !! i = Some (H_switch rawEvt) ->
      match spec_terminal rawEvt with
      | Some status =>
          chclosed (stopQRs (relay w)) = false ->
          (closed (relay w) = 0%N ->
           chclosed (output (relay w)) = false ->
           (length (buf (output (relay w))) < cap (output (relay w)))%nat ->
           exists w',
             run [Run i; Run i; Run i; Run i; Run i; Run i] w = Some w'
             /\ trace w' = trace w ++ [StopClosed i; CasWon i; WroteStatus i status;
                                       OutputClosed i; HandlerRemoved i]
             /\ output (relay w')
                = mkChan (buf (output (relay w)) ++ [status]) (cap (output (relay w))) true
             /\ closed (relay w') = 1%N
             /\ chclosed (stopQRs (relay w')) = true
             /\ threads w' = <[i := Done]> (threads w)
             /\ client w' = RemoveEventHandler (client w) (handlerID (relay w))
             /\ crashed w' = false)
          /\ (closed (relay w) <> 0%N ->
              exists w',
                run [Run i; Run i; Run i; Run i] w = Some w'
                /\ trace w' = trace w ++ [StopClosed i; CasLost i; HandlerRemoved i]
                /\ output (relay w') = output (relay w)
                /\ closed (relay w') = closed (relay w)
                /\ chclosed (stopQRs (relay w')) = true
                /\ threads w' = <[i := Done]> (threads w)
                /\ client w' = RemoveEventHandler (client w) (handlerID (relay w))
                /\ crashed w' = false)
      | None =>
          exists w',
            step (Run i) w = Some w'
            /\ relay w' = relay w
            /\ client w' = client w
            /\ received w' = received w
            /\ sawClosed w' = sawClosed w
            /\ written (trace w') = written (trace w)
            /\ crashed w' = false
            /\ match rawEvt with
               | QR Codes Timeout =>
                   threads w' = <[i := Done]> (threads w) ++ [E_loop Codes Timeout]
                   /\ trace w' = trace w ++ [Spawned i (length (threads w))]
               | _ => threads w' = <[i := Done]> (threads w) /\ trace w' = trace w
               end
      end)
  /\ (forall (cli : Client) (sch : list action) (w : world)
             (i : nat) (rawEvt : event) (x : QRChannelItem),
        exec cli sch = Some w ->
        In (Delivered i rawEvt) (trace w) ->
        In (WroteStatus i x) (trace w) ->
        spec_terminal rawEvt = Some x).
Proof.
  split.
  - exact handleEvent_alone.
  - intros cli sch w i rawEvt x Hexec Hd Hw. unfold exec in Hexec.
    destruct (start cli) as [w0|] eqn:Hstart; [|discriminate].
    pose proof (origin_inv_run sch w0 w (origin_inv_start cli w0 Hstart) Hexec)
      as (_ & _ & _ & O4 & _).
    exact (O4 i x rawEvt Hw Hd).
Qed.

(** A pairing success on the fresh relay. *)
Lemma handleEvent_by_kind_witness :
  exists w',
    run [Run 0; Run 0; Run 0; Run 0; Run 0; Run 0] (invoked PairSuccess) = Some w'
    /\ trace w' = trace (invoked PairSuccess)
                  ++ [StopClosed 0; CasWon 0; WroteStatus 0 QRChannelSuccess;
                      OutputClosed 0; HandlerRemoved 0]
    /\ output (relay w') = mkChan ([] ++ [QRChannelSuccess]) 7 true
    /\ closed (relay w') = 1%N
    /\ chclosed (stopQRs (relay w')) = true
    /\ threads w' = <[0%nat := Done]> (threads (invoked PairSuccess))
    /\ client w' = RemoveEventHandler (client (invoked PairSuccess)) 1
    /\ crashed w' = false.
Proof.
  apply (proj1 (proj1 handleEvent_by_kind (invoked PairSuccess) 0%nat PairSuccess
                  eq_refl eq_refl eq_refl)).
  - reflexivity.
  - reflexivity.
  - cbn. lia.
Defined.

(* ===================================================================== *)
(** ** Every schedule: the calls into the client and the stream *)
(* ===================================================================== *)

(** An invariant of the steps is an invariant of the runs. *)
Lemma run_invariant (P : world -> Prop) :
  (forall a w w', P w -> step a w = Some w' -> P w') ->
  forall sch w w', P w -> run sch w = Some w' -> P w'.
Proof.
  intros Hstep sch. induction sch as [|a sch IH]; intros w w' HP Hrun; cbn in Hrun.
  - injection Hrun as <-. exact HP.
  - destruct (step a w) as [w1|] eqn:Hs; [|discriminate].
    exact (IH w1 w' (Hstep a w w1 HP Hs) Hrun).
Qed.

(** The world [GetQRChannel] leaves, when it returns a stream. *)
Lemma start_world (cli : Client) (w : world) :
  start cli = Some w ->
  IsConnected cli = false /\ ID (Store cli) = None
  /\ w = mkWorld (mkQRChannel (snd (AddEventHandler cli)) 0 (make 7) (make 0))
                 (subscribed cli) [] [] [] false false.
Proof.
  unfold start, GetQRChannel. intros Hs.
  destruct (IsConnected cli); [discriminate|].
  destruct (ID (Store cli)); [discriminate|].
  cbn in Hs. injection Hs as <-. repeat split.
Qed.

Lemma calls_inv_thread_step (w w' : world) (i : nat) (p : pc) :
  calls_inv w ->
  threads w !! i = Some p ->
  thread_step i p w = Some w' ->
  calls_inv w'.
Proof.
  intros (Hd & Hr) Hi Hstep.
  pose proof (total_insert disc_pc (threads w) i p) as Td.
  pose proof (total_insert past_stop_pc (threads w) i p) as Tp.
  destruct p; step_inv Hstep;
  unfold calls_inv;
  cbn [relay client threads trace closed output stopQRs chclosed
       set_thread emit set_closed set_output set_stopQRs set_client spawn panic];
  rewrite ?count_effect_app, ?total_app, ?total_cons, ?total_nil;
  cbn [count_effect List.filter length is_DisconnectRequested is_OutputClosed
       is_HandlerRemoved is_StopClosed disc_pc past_stop_pc];
  try match goal with
      | |- context [total disc_pc (insert _ ?q (threads w))] =>
          specialize (Td q Hi); specialize (Tp q Hi); cbn [disc_pc past_stop_pc] in Td, Tp
      end;
  repeat split; lia.
Qed.

Lemma calls_inv_step (a : action) (w w' : world) :
  calls_inv w -> step a w = Some w' -> calls_inv w'.
Proof.
  intros Hinv Hstep. unfold step in Hstep.
  destruct (crashed w); [discriminate|].
  destruct a as [e|i|i|].
  - injection Hstep as <-. destruct Hinv as (Hd & Hr).
    unfold calls_inv; cbn [client threads trace emit spawn].
    rewrite ?count_effect_app, ?total_app, ?total_cons, ?total_nil.
    cbn [count_effect List.filter length is_DisconnectRequested is_OutputClosed
         is_HandlerRemoved is_StopClosed disc_pc past_stop_pc].
    repeat split; lia.
  - destruct (threads w !! i) as [p|] eqn:Hi; [|discriminate].
    exact (calls_inv_thread_step w w' i p Hinv Hi Hstep).
  - destruct (threads w !! i) as [p|] eqn:Hi; [|discriminate].
    destruct p; try discriminate.
    destruct (recv (stopQRs (relay w))); try discriminate.
    injection Hstep as <-. destruct Hinv as (Hd & Hr).
    pose proof (total_insert disc_pc (threads w) i _ Done Hi) as Td.
    pose proof (total_insert past_stop_pc (threads w) i _ Done Hi) as Tp.
    unfold calls_inv; cbn [client threads trace set_thread emit].
    rewrite ?count_effect_app.
    cbn [count_effect List.filter length is_DisconnectRequested is_OutputClosed
         is_HandlerRemoved is_StopClosed disc_pc past_stop_pc] in *.
    repeat split; lia.
  - unfold consume in Hstep.
    destruct (recv (output (relay w))); try discriminate; injection Hstep as <-;
      exact Hinv.
Qed.

Lemma written_single (e : effect) :
  written [e] = match e with Wrote _ x | WroteStatus _ x => [x] | _ => [] end.
Proof. destruct e; reflexivity. Qed.

Lemma stream_inv_step (a : action) (w w' : world) :
  stream_inv w -> step a w = Some w' -> stream_inv w'.
Proof.
  intros (Hs & Hcap & Hlen & Hsaw) Hstep. unfold step in Hstep.
  destruct (crashed w); [discriminate|].
  destruct a as [e|i|i|].
  - injection Hstep as <-. unfold stream_inv. cbn [relay received sawClosed trace emit spawn].
    rewrite written_app, written_single, app_nil_r.
    split; [|split; [|split]]; assumption.
  - destruct (threads w !! i) as [p|] eqn:Hi; [|discriminate].
    destruct p; step_inv Hstep; unfold stream_inv;
      cbn [relay received sawClosed trace output buf cap chclosed
           set_thread emit set_closed set_output set_stopQRs set_client spawn panic];
      rewrite ?written_app, ?written_single, ?app_nil_r;
      try (split; [|split; [|split]]; assumption);
      world_facts;
      repeat match goal with
             | H : (_ <? _)%nat = true |- _ => apply Nat.ltb_lt in H
             end;
      (split;
       [ first [ assumption | rewrite app_assoc, Hs; reflexivity ]
       | split;
         [ assumption
         | split;
           [ first [ assumption | rewrite length_app; cbn [length]; lia ]
           | first [ assumption
                   | intros Hx; destruct (Hsaw Hx) as [? ?];
                     first [ discriminate | split; [assumption | reflexivity] ] ] ] ] ]).
  - destruct (threads w !! i) as [p|] eqn:Hi; [|discriminate].
    destruct p; try discriminate.
    destruct (recv (stopQRs (relay w))); try discriminate.
    injection Hstep as <-. unfold stream_inv.
    cbn [relay received sawClosed trace set_thread emit].
    rewrite written_app, written_single, app_nil_r.
    split; [|split; [|split]]; assumption.
  - unfold consume, recv in Hstep.
    destruct (buf (output (relay w))) as [|x rest] eqn:Hb.
    + destruct (chclosed (output (relay w))) eqn:Ho; [|discriminate].
      injection Hstep as <-. unfold stream_inv. cbn [relay received sawClosed trace output].
      rewrite Hb, Ho. split; [|split; [|split]]; try assumption.
      intros _. split; reflexivity.
    + injection Hstep as <-. unfold stream_inv.
      cbn [relay received sawClosed trace output buf cap chclosed].
      cbn [length] in Hlen.
      split; [|split; [|split]]; try assumption.
      * rewrite <- app_assoc. exact Hs.
      * lia.
      * intros Hx. destruct (Hsaw Hx) as [? _]. discriminate.
Qed.

Lemma stream_inv_start (cli : Client) (w : world) :
  start cli = Some w -> stream_inv w.
Proof.
  intros Hs. destruct (start_world cli w Hs) as (_ & _ & ->).
  unfold stream_inv. cbn. repeat split; lia.
Qed.

Lemma calls_inv_start (cli : Client) (w : world) :
  start cli = Some w -> calls_inv w.
Proof.
  intros Hs. destruct (start_world cli w Hs) as (_ & _ & ->).
  unfold calls_inv. cbn. repeat split; lia.
Qed.

Lemma caused_inv_update (stage : pc -> bool) (cause result : nat -> effect -> bool)
    (w w' : world) (i : nat) (p p' : pc) (es : list effect) (extra : list pc) :
  caused_inv stage cause result w ->
  threads w !! i = Some p ->
  threads w' = <[i := p']> (threads w) ++ extra ->
  trace w' = trace w ++ es ->
  (stage p' = true -> stage p = true \/ exists e, In e es /\ cause i e = true) ->
  (forall j e, In e es -> result j e = true -> j = i /\ stage p = true) ->
  (forall q, In q extra -> stage q = false) ->
  caused_inv stage cause result w'.
Proof.
  intros (C1 & C2) Hi Hth Htr S1 S2 S3. unfold caused_inv. rewrite Htr. split.
  - intros j q Hj Hst. rewrite Hth in Hj. apply lookup_app_Some in Hj.
    destruct Hj as [Hj|[_ Hj]].
    + apply list_lookup_insert_Some in Hj.
      destruct Hj as [(<- & <- & _)|[Hne Hj]].
      * destruct (S1 Hst) as [Hp|(e & He & Hc)].
        -- destruct (C1 i p Hi Hp) as (e & He & Hc).
           exists e. split; [apply in_or_app; left; exact He | exact Hc].
        -- exists e. split; [apply in_or_app; right; exact He | exact Hc].
      * destruct (C1 j q Hj Hst) as (e & He & Hc).
        exists e. split; [apply in_or_app; left; exact He | exact Hc].
    + assert (In q extra) as Hq
        by (apply list_elem_of_In; eapply list_elem_of_lookup_2, Hj).
      rewrite (S3 q Hq) in Hst. discriminate.
  - intros j e Hin Hres. apply in_app_or in Hin. destruct Hin as [Hin|Hin].
    + destruct (C2 j e Hin Hres) as (e' & He' & Hc).
      exists e'. split; [apply in_or_app; left; exact He' | exact Hc].
    + destruct (S2 j e Hin Hres) as [-> Hp].
      destruct (C1 i p Hi Hp) as (e' & He' & Hc).
      exists e'. split; [apply in_or_app; left; exact He' | exact Hc].
Qed.

(** Threads and effects that are added without a step of a goroutine at a
    stage. *)
Lemma caused_inv_grow (stage : pc -> bool) (cause result : nat -> effect -> bool)
    (w w' : world) (es : list effect) (extra : list pc) :
  caused_inv stage cause result w ->
  threads w' = threads w ++ extra ->
  trace w' = trace w ++ es ->
  (forall j e, In e es -> result j e = false) ->
  (forall q, In q extra -> stage q = false) ->
  caused_inv stage cause result w'.
Proof.
  intros (C1 & C2) Hth Htr S2 S3. unfold caused_inv. rewrite Htr. split.
  - intros j q Hj Hst. rewrite Hth in Hj. apply lookup_app_Some in Hj.
    destruct Hj as [Hj|[_ Hj]].
    + destruct (C1 j q Hj Hst) as (e & He & Hc).
      exists e. split; [apply in_or_app; left; exact He | exact Hc].
    + assert (In q extra) as Hq
        by (apply list_elem_of_In; eapply list_elem_of_lookup_2, Hj).
      rewrite (S3 q Hq) in Hst. discriminate.
  - intros j e Hin Hres. apply in_app_or in Hin. destruct Hin as [Hin|Hin].
    + destruct (C2 j e Hin Hres) as (e' & He' & Hc).
      exists e'. split; [apply in_or_app; left; exact He' | exact Hc].
    + rewrite (S2 j e Hin) in Hres. discriminate.
Qed.

Ltac caused_side :=
  cbn [at_disconnect past_stop closes_output requests_disconnect closes_stop
       removes_handler];
  first
    [ solve [ intros; discriminate ]
    | solve [ intros _; left; reflexivity ]
    | solve [ intros _; right; eexists; split;
              [ left; reflexivity | cbn; apply Nat.eqb_refl ] ]
    | solve [ intros ? ? Hin Hres; in_singleton; subst; cbn in Hres;
              first [ discriminate
                    | apply Nat.eqb_eq in Hres; split;
                      [ first [ exact Hres | symmetry; exact Hres ] | reflexivity ] ] ]
    | solve [ intros ? Hin; in_singleton; subst; reflexivity ] ].

Ltac caused_step_tac Hinv Hi Hstep w i :=
  step_inv Hstep;
  (eapply (caused_inv_update _ _ _ w _ i _ _ _ _ Hinv Hi);
   [ cbn [threads set_thread emit set_closed set_output set_stopQRs set_client spawn panic];
     first [ reflexivity | symmetry; apply app_nil_r ]
   | cbn [trace set_thread emit set_closed set_output set_stopQRs set_client spawn panic];
     first [ reflexivity | symmetry; apply app_nil_r ]
   | caused_side .. ]).

Lemma caused_inv_step (stage : pc -> bool) (cause result : nat -> effect -> bool) :
  (forall w w' i p,
      caused_inv stage cause result w -> threads w !! i = Some p ->
      thread_step i p w = Some w' -> caused_inv stage cause result w') ->
  (forall e, stage (H_switch e) = false) ->
  stage Done = false ->
  (forall j n e, result j (Delivered n e) = false) ->
  (forall j n, result j (Cancelled n) = false) ->
  forall a w w',
    caused_inv stage cause result w -> step a w = Some w' ->
    caused_inv stage cause result w'.
Proof.
  intros Hthread Hsw Hdone Hdel Hcan a w w' Hinv Hstep. unfold step in Hstep.
  destruct (crashed w); [discriminate|].
  destruct a as [e|i|i|].
  - injection Hstep as <-.
    eapply (caused_inv_grow _ _ _ _ _ _ _ Hinv); [reflexivity | reflexivity | |].
    + intros j e' Hin. in_singleton. subst. apply Hdel.
    + intros q Hin. in_singleton. subst. apply Hsw.
  - destruct (threads w !! i) as [p|] eqn:Hi; [|discriminate].
    exact (Hthread w w' i p Hinv Hi Hstep).
  - destruct (threads w !! i) as [p|] eqn:Hi; [|discriminate].
    destruct p; try discriminate.
    destruct (recv (stopQRs (relay w))); try discriminate.
    injection Hstep as <-.
    eapply (caused_inv_update _ _ _ w _ i _ _ _ _ Hinv Hi).
    + cbn [threads set_thread emit]. symmetry. apply app_nil_r.
    + cbn [trace set_thread emit]. reflexivity.
    + rewrite Hdone. discriminate.
    + intros j e Hin Hres. in_singleton. subst. rewrite Hcan in Hres. discriminate.
    + intros q [].
  - unfold consume in Hstep.
    destruct (recv (output (relay w))); try discriminate; injection Hstep as <-;
      exact Hinv.
Qed.

(** A disconnect is requested by the emitter that closed the stream. *)
Lemma disconnect_inv_thread_step (w w' : world) (i : nat) (p : pc) :
  caused_inv at_disconnect closes_output requests_disconnect w ->
  threads w !! i = Some p ->
  thread_step i p w = Some w' ->
  caused_inv at_disconnect closes_output requests_disconnect w'.
Proof.
  intros Hinv Hi Hstep. destruct p; caused_step_tac Hinv Hi Hstep w i.
Qed.

Lemma disconnect_inv_step (a : action) (w w' : world) :
  caused_inv at_disconnect closes_output requests_disconnect w ->
  step a w = Some w' ->
  caused_inv at_disconnect closes_output requests_disconnect w'.
Proof.
  revert a w w'. apply caused_inv_step; try reflexivity.
  exact disconnect_inv_thread_step.
Qed.

(** The handler is removed by the invocation that closed the stop signal. *)
Lemma removal_inv_thread_step (w w' : world) (i : nat) (p : pc) :
  caused_inv past_stop closes_stop removes_handler w ->
  threads w !! i = Some p ->
  thread_step i p w = Some w' ->
  caused_inv past_stop closes_stop removes_handler w'.
Proof.
  intros Hinv Hi Hstep. destruct p; caused_step_tac Hinv Hi Hstep w i.
Qed.

Lemma removal_inv_step (a : action) (w w' : world) :
  caused_inv past_stop closes_stop removes_handler w ->
  step a w = Some w' ->
  caused_inv past_stop closes_stop removes_handler w'.
Proof.
  revert a w w'. apply caused_inv_step; try reflexivity.
  exact removal_inv_thread_step.
Qed.

Lemma caused_inv_start (stage : pc -> bool) (cause result : nat -> effect -> bool)
    (cli : Client) (w : world) :
  start cli = Some w -> caused_inv stage cause result w.
Proof.
  intros Hs. destruct (start_world cli w Hs) as (_ & _ & ->).
  split; cbn.
  - intros i p Hi. destruct i; discriminate.
  - intros i e [].
Qed.

(** In every run, a result is preceded by its cause. *)
Lemma caused_order (stage : pc -> bool) (cause result : nat -> effect -> bool) :
  (forall a w w', caused_inv stage cause result w -> step a w = Some w' ->
                  caused_inv stage cause result w') ->
  forall cli sch w l1 e l2 i,
    exec cli sch = Some w ->
    trace w = l1 ++ e :: l2 ->
    result i e = true ->
    cause i e = false ->
    exists e', In e' l1 /\ cause i e' = true.
Proof.
  intros Hstep cli sch w l1 e l2 i Hexec Htr Hres Hnc. unfold exec in Hexec.
  destruct (start cli) as [w0|] eqn:Hstart; [|discriminate].
  pose proof (caused_inv_start stage cause result cli w0 Hstart) as H0.
  destruct (start_world cli w0 Hstart) as (_ & _ & Hw0).
  destruct (prefix_reachable sch w0 w (l1 ++ [e]) l2 Hexec) as (sch1 & w1 & Hrun1 & Ht1).
  { rewrite <- app_assoc. exact Htr. }
  { rewrite Hw0. cbn. lia. }
  pose proof (run_invariant _ Hstep sch1 w0 w1 H0 Hrun1) as [_ C2].
  destruct (C2 i e) as (e' & He' & Hc); [rewrite Ht1; apply in_or_app; right; left; reflexivity | exact Hres |].
  rewrite Ht1 in He'. apply in_app_or in He'. destruct He' as [He'|[<-|[]]].
  - exists e'. split; assumption.
  - congruence.
Qed.

Lemma flag_inv_exec (cli : Client) (sch : list action) (w : world) :
  exec cli sch = Some w -> flag_inv w /\ winner_inv w.
Proof.
  unfold exec. intros Hexec.
  destruct (start cli) as [w0|] eqn:Hstart; [|discriminate].
  destruct (start_invariants cli w0 Hstart) as (Hf0 & Hw0 & _).
  exact (invariants_run sch w0 w Hf0 Hw0 Hexec).
Qed.

Lemma exec_invariant (P : world -> Prop) (cli : Client) :
  (forall w, start cli = Some w -> P w) ->
  (forall a w w', P w -> step a w = Some w' -> P w') ->
  forall sch w, exec cli sch = Some w -> P w.
Proof.
  intros Hstart Hstep sch w Hexec. unfold exec in Hexec.
  destruct (start cli) as [w0|] eqn:Hs; [|discriminate].
  exact (run_invariant P Hstep sch w0 w (Hstart w0 eq_refl) Hexec).
Qed.

(** For every schedule after [GetQRChannel]: [qrc.cli.Disconnect()] is called
    at most once, never more often than the stream was closed, and each call
    is made by a goroutine that closed the stream before. *)
Theorem disconnect_at_most_once (cli : Client) (sch : list action) (w : world) :
  exec cli sch = Some w ->
  (count_effect is_DisconnectRequested (trace w) <= 1)%nat
  /\ (count_effect is_DisconnectRequested (trace w)
      <= count_effect is_OutputClosed (trace w))%nat
  /\ (forall l1 i l2, trace w = l1 ++ DisconnectRequested i :: l2 ->
                      In (OutputClosed i) l1).
Proof.
  intros Hexec.
  destruct (flag_inv_exec cli sch w Hexec) as [(Hcl & Hle & Hwon & Hsent & _) _].
  pose proof (exec_invariant calls_inv cli (calls_inv_start cli) calls_inv_step sch w Hexec)
    as [Hd _].
  split; [lia|]. split; [lia|].
  intros l1 i l2 Htr.
  destruct (caused_order at_disconnect closes_output requests_disconnect
              disconnect_inv_step cli sch w l1 _ l2 i Hexec Htr)
    as (e' & He' & Hc).
  { cbn. apply Nat.eqb_refl. }
  { reflexivity. }
  destruct e'; cbn in Hc; try discriminate.
  apply Nat.eqb_eq in Hc. subst. exact He'.
Qed.

(** For every schedule after [GetQRChannel]: [RemoveEventHandler] is called at
    most once, never more often than the stop signal was closed, and each
    call is made by an invocation that closed the stop signal before. *)
Theorem handler_removed_at_most_once (cli : Client) (sch : list action) (w : world) :
  exec cli sch = Some w ->
  (count_effect is_HandlerRemoved (trace w) <= 1)%nat
  /\ (count_effect is_HandlerRemoved (trace w)
      <= count_effect is_StopClosed (trace w))%nat
  /\ (forall l1 i l2, trace w = l1 ++ HandlerRemoved i :: l2 ->
                      In (StopClosed i) l1).
Proof.
  intros Hexec.
  destruct (flag_inv_exec cli sch w Hexec) as [(_ & _ & _ & _ & _ & Hstop) _].
  pose proof (exec_invariant calls_inv cli (calls_inv_start cli) calls_inv_step sch w Hexec)
    as [_ Hr].
  assert (count_effect is_StopClosed (trace w) <= 1)%nat
    by (destruct (chclosed (stopQRs (relay w))); lia).
  split; [lia|]. split; [lia|].
  intros l1 i l2 Htr.
  destruct (caused_order past_stop closes_stop removes_handler
              removal_inv_step cli sch w l1 _ l2 i Hexec Htr)
    as (e' & He' & Hc).
  { cbn. apply Nat.eqb_refl. }
  { reflexivity. }
  destruct e'; cbn in Hc; try discriminate.
  apply Nat.eqb_eq in Hc. subst. exact He'.
Qed.

(** For every schedule after [GetQRChannel]: the values written are, in the
    order written, the values the consumer has read followed by those in
    the buffer, which never holds more than its seven places.  A consumer
    that has seen the stream closed has read every value that was written;
    by then the closed flag is set and exactly one close value was sent and
    one close made. *)
Theorem stream_is_what_was_written (cli : Client) (sch : list action) (w : world) :
  exec cli sch = Some w ->
  written (trace w) = received w ++ buf (output (relay w))
  /\ (length (buf (output (relay w))) <= 7)%nat
  /\ (sawClosed w = true ->
      received w = written (trace w)
      /\ chclosed (output (relay w)) = true
      /\ closed (relay w) = 1%N
      /\ count_effect is_WroteStatus (trace w) = 1%nat
      /\ count_effect is_OutputClosed (trace w) = 1%nat).
Proof.
  intros Hexec.
  destruct (flag_inv_exec cli sch w Hexec) as [(Hcl & Hle & Hwon & Hsent & Hout & _) _].
  pose proof (exec_invariant stream_inv cli (stream_inv_start cli) stream_inv_step sch w Hexec)
    as (Hs & _ & Hlen & Hsaw).
  split; [symmetry; exact Hs|]. split; [exact Hlen|].
  intros Hx. destruct (Hsaw Hx) as [Hb Ho].
  rewrite Hb, app_nil_r in Hs. rewrite Ho in Hout.
  split; [exact Hs|]. split; [exact Ho|].
  assert (count_effect is_CasWon (trace w) = 1%nat) as HW by lia.
  rewrite HW in Hcl. repeat split; [exact Hcl | lia | lia].
Qed.

Lemma total_lookup_le (f : pc -> nat) (l : list pc) (i : nat) (p : pc) :
  l !! i = Some p -> (f p <= total f l)%nat.
Proof.
  revert i. induction l as [|a l IH]; intros i Hi; [discriminate|].
  rewrite total_cons. destruct i as [|i]; cbn in Hi.
  - injection Hi as ->. lia.
  - specialize (IH i Hi). lia.
Qed.

Lemma total_lookup_two (f : pc -> nat) (l : list pc) (i j : nat) (p q : pc) :
  l !! i = Some p -> l !! j = Some q -> i <> j -> (f p + f q <= total f l)%nat.
Proof.
  revert i j. induction l as [|a l IH]; intros i j Hi Hj Hne; [discriminate|].
  rewrite total_cons. destruct i as [|i], j as [|j]; cbn in Hi, Hj.
  - congruence.
  - injection Hi as ->. pose proof (total_lookup_le f l j q Hj). lia.
  - injection Hj as ->. pose proof (total_lookup_le f l i p Hi). lia.
  - assert (i <> j) by congruence. specialize (IH i j Hi Hj H). lia.
Qed.

(** For every schedule after [GetQRChannel]: a goroutine that stands between
    its won compare-and-swap and its close of the stream (at the send of its
    close value or at the close) is the only such goroutine and it has won
    the compare-and-swap; the flag is set and the stream is still open, so
    its next instruction does not panic: a close value is never sent on a
    closed stream and the stream is never closed twice. *)
Theorem terminal_path_is_exclusive
    (cli : Client) (sch : list action) (w : world) (i : nat) (p : pc) :
  exec cli sch = Some w ->
  threads w !! i = Some p ->
  (0 < won_pc p + sent_pc p)%nat ->
  closed (relay w) = 1%N
  /\ chclosed (output (relay w)) = false
  /\ In (CasWon i) (trace w)
  /\ (forall j q, threads w !! j = Some q -> (0 < won_pc q + sent_pc q)%nat -> j = i)
  /\ (forall w', step (Run i) w = Some w' -> crashed w' = false).
Proof.
  intros Hexec Hi Hpos.
  destruct (flag_inv_exec cli sch w Hexec)
    as [(Hcl & Hle & Hwon & Hsent & Hout & _) (C1 & _)].
  pose proof (total_lookup_le won_pc _ _ _ Hi) as Lw.
  pose proof (total_lookup_le sent_pc _ _ _ Hi) as Ls.
  assert (HW : count_effect is_CasWon (trace w) = 1%nat) by lia.
  assert (HC : count_effect is_OutputClosed (trace w) = 0%nat) by lia.
  assert (Ho : chclosed (output (relay w)) = false)
    by (destruct (chclosed (output (relay w))); [lia | reflexivity]).
  split; [rewrite Hcl, HW; reflexivity|]. split; [exact Ho|].
  split; [exact (C1 i p Hi Hpos)|]. split.
  - intros j q Hj Hq. destruct (Nat.eq_dec j i) as [Heq|Hne]; [exact Heq|exfalso].
    pose proof (total_lookup_two won_pc _ _ _ _ _ Hj Hi Hne).
    pose proof (total_lookup_two sent_pc _ _ _ _ _ Hj Hi Hne).
    pose proof (total_lookup_le won_pc _ _ _ Hj).
    pose proof (total_lookup_le sent_pc _ _ _ Hj).
    lia.
  - intros w' Hstep. unfold step in Hstep.
    destruct (crashed w) eqn:Hc; [discriminate|]. rewrite Hi in Hstep.
    destruct p; cbn in Hpos; try lia;
      unfold thread_step, send, close in Hstep; rewrite Ho in Hstep;
      repeat match type of Hstep with
             | context [if ?b then _ else _] => destruct b
             end;
      try discriminate; injection Hstep as <-; exact Hc.
Qed.

Lemma disconnect_at_most_once_witness :
  exists w,
    exec newClient (drain_schedule ["1@ABC"] 20) = Some w
    /\ (count_effect is_DisconnectRequested (trace w) <= 1)%nat
    /\ (count_effect is_DisconnectRequested (trace w)
        <= count_effect is_OutputClosed (trace w))%nat
    /\ (forall l1 i l2, trace w = l1 ++ DisconnectRequested i :: l2 ->
                        In (OutputClosed i) l1).
Proof.
  eexists. split; [vm_compute; reflexivity|].
  apply (disconnect_at_most_once newClient (drain_schedule ["1@ABC"] 20)).
  vm_compute. reflexivity.
Defined.

Lemma handler_removed_at_most_once_witness :
  exists w,
    exec newClient late_code_schedule = Some w
    /\ (count_effect is_HandlerRemoved (trace w) <= 1)%nat
    /\ (count_effect is_HandlerRemoved (trace w)
        <= count_effect is_StopClosed (trace w))%nat
    /\ (forall l1 i l2, trace w = l1 ++ HandlerRemoved i :: l2 ->
                        In (StopClosed i) l1).
Proof.
  eexists. split; [vm_compute; reflexivity|].
  apply (handler_removed_at_most_once newClient late_code_schedule).
  vm_compute. reflexivity.
Defined.

Lemma stream_is_what_was_written_witness :
  exists w,
    exec newClient late_code_schedule = Some w
    /\ written (trace w) = received w ++ buf (output (relay w))
    /\ (length (buf (output (relay w))) <= 7)%nat
    /\ (sawClosed w = true ->
        received w = written (trace w)
        /\ chclosed (output (relay w)) = true
        /\ closed (relay w) = 1%N
        /\ count_effect is_WroteStatus (trace w) = 1%nat
        /\ count_effect is_OutputClosed (trace w) = 1%nat).
Proof.
  eexists. split; [vm_compute; reflexivity|].
  apply (stream_is_what_was_written newClient late_code_schedule).
  vm_compute. reflexivity.
Defined.

Lemma terminal_path_is_exclusive_witness :
  exists w,
    exec newClient winner_schedule = Some w
    /\ closed (relay w) = 1%N
    /\ chclosed (output (relay w)) = false
    /\ In (CasWon 0) (trace w)
    /\ (forall j q, threads w !! j = Some q ->
                    (0 < won_pc q + sent_pc q)%nat -> j = 0%nat)
    /\ (forall w', step (Run 0) w = Some w' -> crashed w' = false).
Proof.
  eexists. split; [vm_compute; reflexivity|].
  apply (terminal_path_is_exclusive newClient winner_schedule _ 0%nat
           (H_send QRChannelSuccess)).
  - vm_compute. reflexivity.
  - reflexivity.
  - cbn. lia.
Defined.

(* ===================================================================== *)
(** ** Every schedule: the codes of an emitter *)
(* ===================================================================== *)

Lemma written_by_app (i : nat) (t1 t2 : list effect) :
  written_by i (t1 ++ t2) = written_by i t1 ++ written_by i t2.
Proof. unfold written_by. apply omap_app. Qed.

Lemma written_by_none (i : nat) (tr : list effect) :
  (forall c, ~ In (Wrote i c) tr) -> written_by i tr = [].
Proof.
  induction tr as [|e tr IH]; intros Hno; [reflexivity|].
  assert (Htl : written_by i tr = []).
  { apply IH. intros c Hin. apply (Hno c). right. exact Hin. }
  destruct e; try exact Htl.
  unfold written_by in *. cbn. destruct (Nat.eqb_spec tid i) as [->|Hne].
  - exfalso. apply (Hno item). left. reflexivity.
  - exact Htl.
Qed.

Lemma seq_inv_update (w w' : world) (i : nat) (p p' : pc)
    (es : list effect) (extra : list pc) :
  seq_inv w ->
  threads w !! i = Some p ->
  threads w' = <[i := p']> (threads w) ++ extra ->
  trace w' = trace w ++ es ->
  (forall j c, In (Wrote j c) es -> j = i) ->
  (forall rest' T, pending p' = Some (rest', T) ->
     pending p = Some (written_by i es ++ rest', T)) ->
  (written_by i es = [] \/
   exists rest' T, pending p = Some (written_by i es ++ rest', T)) ->
  (extra = [] \/
   exists Codes T parent, extra = [E_loop Codes T]
                          /\ In (Delivered parent (QR Codes T)) (trace w)) ->
  seq_inv w'.
Proof.
  intros (S1 & S2 & S3) Hi Hth Htr Hw Hpend Hwr Hextra.
  assert (Hlt : (i < length (threads w))%nat) by (eapply lookup_lt_Some, Hi).
  assert (Hlen : (length (threads w) <= length (threads w'))%nat).
  { rewrite Hth, length_app, length_insert. lia. }
  assert (Hother : forall j, j <> i -> written_by j es = []).
  { intros j Hne. apply written_by_none. intros c Hin. apply Hne.
    exact (Hw j c Hin). }
  unfold seq_inv. rewrite Htr. split; [|split].
  - intros j c Hin. apply in_app_or in Hin. destruct Hin as [Hin|Hin].
    + specialize (S1 j c Hin). lia.
    + rewrite (Hw j c Hin). lia.
  - intros j q rest T Hj Hq. rewrite Hth in Hj. apply lookup_app_Some in Hj.
    destruct Hj as [Hj|[Hge Hj]].
    + apply list_lookup_insert_Some in Hj.
      destruct Hj as [(<- & <- & _)|[Hne Hj]].
      * destruct (S2 i p _ T Hi (Hpend rest T Hq)) as (parent & Codes & Hd & Hc).
        exists parent, Codes. split; [apply in_or_app; left; exact Hd|].
        rewrite written_by_app, <- app_assoc. exact Hc.
      * destruct (S2 j q rest T Hj Hq) as (parent & Codes & Hd & Hc).
        exists parent, Codes. split; [apply in_or_app; left; exact Hd|].
        rewrite written_by_app, (Hother j) by congruence. rewrite app_nil_r. exact Hc.
    + destruct Hextra as [->|(Codes & T' & parent & -> & Hd)];
        [destruct (j - _)%nat; discriminate|].
      rewrite length_insert in Hge, Hj.
      destruct (j - length (threads w))%nat eqn:Hsub; cbn in Hj; [|discriminate].
      injection Hj as <-. cbn in Hq. injection Hq as <- <-.
      exists parent, Codes. split; [apply in_or_app; left; exact Hd|].
      assert (j <> i) by lia.
      rewrite written_by_app, (Hother j) by assumption.
      rewrite written_by_none; [reflexivity|].
      intros c Hin. specialize (S1 j c Hin). lia.
  - intros j. destruct (Nat.eq_dec j i) as [->|Hne].
    + rewrite written_by_app. destruct Hwr as [Hnil|(rest' & T & Hp)].
      * rewrite Hnil, app_nil_r.
        destruct (S3 i) as [H|(parent & Codes & T & rest & Hd & Hc)]; [left; exact H|].
        right. exists parent, Codes, T, rest.
        split; [apply in_or_app; left; exact Hd | exact Hc].
      * destruct (S2 i p _ T Hi Hp) as (parent & Codes & Hd & Hc).
        right. exists parent, Codes, T, rest'.
        split; [apply in_or_app; left; exact Hd|].
        rewrite <- app_assoc. exact Hc.
    + rewrite written_by_app, (Hother j Hne), app_nil_r.
      destruct (S3 j) as [H|(parent & Codes & T & rest & Hd & Hc)]; [left; exact H|].
      right. exists parent, Codes, T, rest.
      split; [apply in_or_app; left; exact Hd | exact Hc].
Qed.

Lemma written_by_own (i : nat) (c : QRChannelItem) : written_by i [Wrote i c] = [c].
Proof. unfold written_by. cbn. rewrite Nat.eqb_refl. reflexivity. Qed.

Ltac seq_side O2 Hi :=
  first
    [ solve [ intros ? ? Hin; in_singleton;
              match type of Hin with Wrote _ _ = Wrote _ _ => injection Hin as <- <- end;
              reflexivity ]
    | solve [ cbn [pending]; intros ? ? Hp; try discriminate Hp;
              injection Hp as <- <-; rewrite ?written_by_own; reflexivity ]
    | solve [ left; reflexivity ]
    | solve [ right; eexists _, _; rewrite written_by_own; reflexivity ]
    | solve [ right; eexists _, _, _; split; [ reflexivity | exact (O2 _ _ Hi) ] ] ].

Lemma seq_inv_thread_step (w w' : world) (i : nat) (p : pc) :
  origin_inv w ->
  seq_inv w ->
  threads w !! i = Some p ->
  thread_step i p w = Some w' ->
  seq_inv w'.
Proof.
  intros (_ & O2 & _) Hinv Hi Hstep.
  destruct p; step_inv Hstep;
    (eapply (seq_inv_update w _ _ _ _ _ _ Hinv Hi);
     [ cbn [threads set_thread emit set_closed set_output set_stopQRs set_client spawn panic];
       first [ reflexivity | symmetry; apply app_nil_r ]
     | cbn [trace set_thread emit set_closed set_output set_stopQRs set_client spawn panic];
       first [ reflexivity | symmetry; apply app_nil_r ]
     | seq_side O2 Hi .. ]).
Qed.

Lemma seq_inv_step (a : action) (w w' : world) :
  origin_inv w -> seq_inv w -> step a w = Some w' -> seq_inv w'.
Proof.
  intros Ho Hinv Hstep. unfold step in Hstep.
  destruct (crashed w); [discriminate|].
  destruct a as [e|i|i|].
  - injection Hstep as <-. destruct Hinv as (S1 & S2 & S3).
    assert (Hwb : forall j, written_by j (trace w ++ [Delivered (length (threads w)) e])
                            = written_by j (trace w)).
    { intros j. rewrite written_by_app. cbn. apply app_nil_r. }
    unfold seq_inv. cbn [threads trace emit spawn]. split; [|split].
    + intros j c Hin. rewrite length_app. apply in_app_or in Hin.
      destruct Hin as [Hin|Hin]; [specialize (S1 j c Hin); lia | in_singleton].
    + intros j q rest T Hj Hq. rewrite Hwb. apply lookup_app_Some in Hj.
      destruct Hj as [Hj|[_ Hj]].
      * destruct (S2 j q rest T Hj Hq) as (parent & Codes & Hd & Hc).
        exists parent, Codes. split; [apply in_or_app; left; exact Hd | exact Hc].
      * destruct (j - length (threads w))%nat; cbn in Hj; [|discriminate].
        injection Hj as <-. discriminate.
    + intros j. rewrite Hwb.
      destruct (S3 j) as [H|(parent & Codes & T & rest & Hd & Hc)]; [left; exact H|].
      right. exists parent, Codes, T, rest.
      split; [apply in_or_app; left; exact Hd | exact Hc].
  - destruct (threads w !! i) as [p|] eqn:Hi; [|discriminate].
    exact (seq_inv_thread_step w w' i p Ho Hinv Hi Hstep).
  - destruct (threads w !! i) as [p|] eqn:Hi; [|discriminate].
    destruct p; try discriminate.
    destruct (recv (stopQRs (relay w))); try discriminate.
    injection Hstep as <-.
    eapply (seq_inv_update w _ _ _ _ _ _ Hinv Hi).
    + cbn [threads set_thread emit]. symmetry. apply app_nil_r.
    + cbn [trace set_thread emit]. reflexivity.
    + intros j c Hin. in_singleton.
    + cbn [pending]. intros ? ? Hp. discriminate Hp.
    + left. reflexivity.
    + left. reflexivity.
  - unfold consume in Hstep.
    destruct (recv (output (relay w))); try discriminate; injection Hstep as <-;
      exact Hinv.
Qed.

Lemma seq_inv_exec (cli : Client) (sch : list action) (w : world) :
  exec cli sch = Some w -> seq_inv w.
Proof.
  intros Hexec.
  apply (exec_invariant (fun w => origin_inv w /\ seq_inv w) cli) with (sch := sch);
    [ | | exact Hexec ].
  - intros w0 Hs. split; [exact (origin_inv_start cli w0 Hs)|].
    destruct (start_world cli w0 Hs) as (_ & _ & ->).
    split; [|split]; cbn.
    + intros i c [].
    + intros i p rest T Hi. destruct i; discriminate.
    + intros i. left. reflexivity.
  - intros a w1 w2 [Ho Hs] Hstep.
    split; [exact (origin_inv_step a w1 w2 Ho Hstep) | exact (seq_inv_step a w1 w2 Ho Hs Hstep)].
Qed.

(** For every schedule after [GetQRChannel], with any number of code
    sequences and other events: the codes a goroutine has sent are the
    beginning, in order and without gap or repeat, of the code sequence of
    an event that was delivered; and an emitter that still runs holds
    exactly the rest of that sequence. *)
Theorem emitters_send_their_sequence_in_order
    (cli : Client) (sch : list action) (w : world) :
  exec cli sch = Some w ->
  (forall i,
      written_by i (trace w) = []
      \/ exists parent Codes Timeout rest,
           In (Delivered parent (QR Codes Timeout)) (trace w)
           /\ Codes = written_by i (trace w) ++ rest)
  /\ (forall i p rest Timeout,
        threads w !! i = Some p -> pending p = Some (rest, Timeout) ->
        exists parent Codes,
          In (Delivered parent (QR Codes Timeout)) (trace w)
          /\ Codes = written_by i (trace w) ++ rest).
Proof.
  intros Hexec. destruct (seq_inv_exec cli sch w Hexec) as (_ & S2 & S3).
  split; [exact S3 | exact S2].
Qed.

Lemma emitters_send_their_sequence_in_order_witness :
  exists w,
    exec newClient late_code_schedule = Some w
    /\ (forall i,
          written_by i (trace w) = []
          \/ exists parent Codes Timeout rest,
               In (Delivered parent (QR Codes Timeout)) (trace w)
               /\ Codes = written_by i (trace w) ++ rest)
    /\ (forall i p rest Timeout,
          threads w !! i = Some p -> pending p = Some (rest, Timeout) ->
          exists parent Codes,
            In (Delivered parent (QR Codes Timeout)) (trace w)
            /\ Codes = written_by i (trace w) ++ rest).
Proof.
  eexists. split; [vm_compute; reflexivity|].
  apply (emitters_send_their_sequence_in_order newClient late_code_schedule).
  vm_compute. reflexivity.
Defined.

(* ===================================================================== *)
(** ** A terminal event while the emitter waits; the closed stream *)
(* ===================================================================== *)

(** The first turns of the loop, each code read before the next is due. *)
Lemma emit_schedule_prefix_run (sent rest : list string) (Timeout : Z) (hid : N)
    (stop : chan unit) (c : Client) (tr : list effect) (rcv : list QRChannelItem)
    (sc : bool) :
  run (emit_schedule 1 (length sent))
      (mkWorld (mkQRChannel hid 0 (make 7) stop) c [Done; E_loop (sent ++ rest) Timeout]
               tr rcv sc false)
  = Some (mkWorld (mkQRChannel hid 0 (make 7) stop) c [Done; E_loop rest Timeout]
                  (tr ++ map (Wrote 1) sent) (rcv ++ sent) sc false).
Proof.
  revert tr rcv. induction sent as [|nextCode sent IH]; intros tr rcv.
  - cbn. rewrite !app_nil_r. reflexivity.
  - cbn [length emit_schedule app].
    change (run (Run 1 :: Run 1 :: Receive :: Run 1 :: emit_schedule 1 (length sent)) ?w)
      with (run ([Run 1; Run 1; Receive; Run 1] ++ emit_schedule 1 (length sent)) w).
    rewrite run_app, one_code_run, IH. cbn. rewrite <- !app_assoc. reflexivity.
Qed.

Lemma stop_tail_run (nextCode : string) (rest : list string) (Timeout : Z) (hid : N)
    (c : Client) (tr : list effect) (rcv : list QRChannelItem)
    (rawEvt : event) (status : QRChannelItem) :
  spec_terminal rawEvt = Some status ->
  run ([Run 1; Run 1; Receive]
       ++ [Deliver rawEvt; Run 2; Run 2; Run 2; Run 2; Run 2; Run 2;
           Cancel 1; Receive; Receive])
      (mkWorld (mkQRChannel hid 0 (make 7) (make 0)) c
               [Done; E_loop (nextCode :: rest) Timeout] tr rcv false false)
  = Some (mkWorld (mkQRChannel hid 1 (mkChan [] 7 true) (mkChan [] 0 true))
            (RemoveEventHandler c hid) [Done; Done; Done]
            (tr ++ [Wrote 1 nextCode; Delivered 2 rawEvt; StopClosed 2; CasWon 2;
                    WroteStatus 2 status; OutputClosed 2; HandlerRemoved 2; Cancelled 1])
            (rcv ++ [nextCode; status]) true false).
Proof.
  intros Hspec.
  destruct rawEvt; cbn in Hspec; try discriminate; injection Hspec as <-;
    cbn; rewrite <- !app_assoc; reflexivity.
Qed.

(** A code sequence is delivered to the relay that [GetQRChannel] returned;
    the emitter has sent some codes, the consumer has read them, and the
    emitter waits for the validity of the last one to end when a
    terminal-causing event is handled: the invocation closes the stop
    signal, sends the close value of the event's kind, closes the stream
    and removes the handler; the emitter takes the stop case and returns
    without sending another code.  The consumer reads the codes sent so
    far, then the close value, then sees the stream closed; nothing
    panics and no disconnect is requested. *)
Theorem terminal_event_stops_waiting_emitter
    (cli : Client) (sent : list string) (nextCode : string) (rest : list string)
    (Timeout : Z) (rawEvt : event) (status : QRChannelItem) :
  IsConnected cli = false ->
  ID (Store cli) = None ->
  spec_terminal rawEvt = Some status ->
  exists w,
    exec cli (interrupted_schedule sent nextCode rest Timeout rawEvt) = Some w
    /\ trace w = [Delivered 0 (QR (sent ++ nextCode :: rest) Timeout); Spawned 0 1]
                 ++ map (Wrote 1) (sent ++ [nextCode])
                 ++ [Delivered 2 rawEvt; StopClosed 2; CasWon 2; WroteStatus 2 status;
                     OutputClosed 2; HandlerRemoved 2; Cancelled 1]
    /\ written (trace w) = sent ++ [nextCode; status]
    /\ received w = sent ++ [nextCode; status]
    /\ sawClosed w = true
    /\ chclosed (output (relay w)) = true
    /\ threads w = [Done; Done; Done]
    /\ client w = RemoveEventHandler (subscribed cli) (handlerID (relay w))
    /\ crashed w = false.
Proof.
  intros Hc Hid Hspec.
  pose proof (emitter_started cli (sent ++ nextCode :: rest) Timeout Hc Hid) as Hs.
  unfold exec in *. destruct (start cli) as [w0|]; [|discriminate].
  unfold interrupted_schedule, stop_schedule.
  change (Deliver ?e :: Run 0 :: ?l) with ([Deliver e; Run 0] ++ l).
  rewrite run_app, Hs, run_app, emit_schedule_prefix_run.
  rewrite (stop_tail_run nextCode rest Timeout _ _ _ _ rawEvt status Hspec).
  eexists. split; [reflexivity|].
  cbn [trace received sawClosed threads client relay handlerID crashed output chclosed].
  rewrite !written_app, written_map_Wrote, map_app, <- !app_assoc.
  repeat split.
Qed.

Lemma terminal_event_stops_waiting_emitter_witness :
  exists w,
    exec newClient (interrupted_schedule ["1@ABC"] "2@DEF" [] 20 PairSuccess) = Some w
    /\ trace w = [Delivered 0 (QR (["1@ABC"] ++ "2@DEF" :: []) 20); Spawned 0 1]
                 ++ map (Wrote 1) (["1@ABC"] ++ ["2@DEF"])
                 ++ [Delivered 2 PairSuccess; StopClosed 2; CasWon 2;
                     WroteStatus 2 QRChannelSuccess;
                     OutputClosed 2; HandlerRemoved 2; Cancelled 1]
    /\ written (trace w) = ["1@ABC"] ++ ["2@DEF"; QRChannelSuccess]
    /\ received w = ["1@ABC"] ++ ["2@DEF"; QRChannelSuccess]
    /\ sawClosed w = true
    /\ chclosed (output (relay w)) = true
    /\ threads w = [Done; Done; Done]
    /\ client w = RemoveEventHandler (subscribed newClient) (handlerID (relay w))
    /\ crashed w = false.
Proof.
  exact (terminal_event_stops_waiting_emitter newClient ["1@ABC"] "2@DEF" [] 20
           PairSuccess QRChannelSuccess eq_refl eq_refl eq_refl).
Defined.

Lemma closed_stream_step (a : action) (w w' : world) :
  chclosed (output (relay w)) = true ->
  step a w = Some w' ->
  chclosed (output (relay w')) = true
  /\ written (trace w') = written (trace w)
  /\ exists k, buf (output (relay w)) = k ++ buf (output (relay w'))
               /\ received w' = received w ++ k.
Proof.
  intros Ho Hstep. unfold step in Hstep.
  destruct (crashed w); [discriminate|].
  destruct a as [e|i|i|].
  - injection Hstep as <-. cbn [relay trace output received emit spawn].
    rewrite written_app, written_single, app_nil_r.
    split; [exact Ho|]. split; [reflexivity|]. exists []. split; [reflexivity | symmetry; apply app_nil_r].
  - destruct (threads w !! i) as [p|] eqn:Hi; [|discriminate].
    destruct p; unfold thread_step, CompareAndSwapUint32, send, close in Hstep;
      rewrite ?Ho in Hstep;
      repeat match type of Hstep with
             | context [match ?x with _ => _ end] =>
                 lazymatch x with
                 | context [match _ with _ => _ end] => fail
                 | _ => destruct x eqn:?
                 end
             end;
      try discriminate Hstep; injection Hstep as <-;
      cbn [relay trace output chclosed received buf
           set_thread emit set_closed set_output set_stopQRs set_client spawn panic];
      rewrite ?written_app, ?written_single, ?app_nil_r;
      (split; [ first [ exact Ho | reflexivity ]
              | split; [ reflexivity
                       | exists []; split; [reflexivity | symmetry; apply app_nil_r] ] ]).
  - destruct (threads w !! i) as [p|] eqn:Hi; [|discriminate].
    destruct p; try discriminate.
    destruct (recv (stopQRs (relay w))); try discriminate.
    injection Hstep as <-. cbn [relay trace output received set_thread emit].
    rewrite written_app, written_single, app_nil_r.
    split; [exact Ho|]. split; [reflexivity|]. exists []. split; [reflexivity | symmetry; apply app_nil_r].
  - unfold consume, recv in Hstep.
    destruct (buf (output (relay w))) as [|x rest] eqn:Hb.
    + rewrite Ho in Hstep. injection Hstep as <-.
      split; [exact Ho|]. split; [reflexivity|]. exists [].
      cbn [relay output received]. rewrite Hb.
      split; [reflexivity | symmetry; apply app_nil_r].
    + injection Hstep as <-.
      split; [exact Ho|]. split; [reflexivity|]. exists [x]. split; reflexivity.
Qed.

(** Once the stream is closed nothing is written any more, whatever runs:
    the values written stay what they were, the stream stays closed, and the
    consumer can only read what the buffer still held. *)
Theorem nothing_written_after_close (sch : list action) (w w' : world) :
  chclosed (output (relay w)) = true ->
  run sch w = Some w' ->
  chclosed (output (relay w')) = true
  /\ written (trace w') = written (trace w)
  /\ exists k, buf (output (relay w)) = k ++ buf (output (relay w'))
               /\ received w' = received w ++ k.
Proof.
  revert w. induction sch as [|a sch IH]; intros w Ho Hrun; cbn in Hrun.
  - injection Hrun as <-. split; [exact Ho|]. split; [reflexivity|].
    exists []. split; [reflexivity | symmetry; apply app_nil_r].
  - destruct (step a w) as [w1|] eqn:Hstep; [|discriminate].
    destruct (closed_stream_step a w w1 Ho Hstep) as (Ho1 & Hw1 & k1 & Hb1 & Hr1).
    destruct (IH w1 Ho1 Hrun) as (Ho' & Hw' & k2 & Hb2 & Hr2).
    split; [exact Ho'|]. split; [congruence|].
    exists (k1 ++ k2). rewrite Hb1, Hb2, Hr2, Hr1, <- !app_assoc. split; reflexivity.
Qed.

(** A close value is never dropped: with the open stream's buffer full the
    send waits, and once the consumer has read a value it goes through. *)
Theorem status_send_waits_for_room
    (w : world) (i : nat) (p : pc) (status : QRChannelItem)
    (x : QRChannelItem) (rest : list QRChannelItem) :
  crashed w = false ->
  threads w !! i = Some p ->
  (p = H_send status \/ (p = E_sendTimeout /\ status = QRChannelTimeout)) ->
  chclosed (output (relay w)) = false ->
  buf (output (relay w)) = x :: rest ->
  cap (output (relay w)) = length (x :: rest) ->
  step (Run i) w = None
  /\ exists w1 w2,
       step Receive w = Some w1
       /\ received w1 = received w ++ [x]
       /\ step (Run i) w1 = Some w2
       /\ buf (output (relay w2)) = rest ++ [status]
       /\ trace w2 = trace w ++ [WroteStatus i status]
       /\ chclosed (output (relay w2)) = false
       /\ crashed w2 = false.
Proof.
  intros Hlive Hi Hp Ho Hb Hcap.
  assert (Hfull : send (output (relay w)) status = SendWouldBlock).
  { apply send_full; [exact Ho | rewrite Hb, Hcap; lia]. }
  destruct Hp as [->|[-> ->]].
  - split.
    + rewrite (step_Run w i _ Hlive Hi). unfold thread_step. rewrite Hfull. reflexivity.
    + unfold step at 1. rewrite Hlive. unfold consume, recv. rewrite Hb.
      eexists _, _. split; [reflexivity|]. split; [reflexivity|].
      unfold step. cbn [crashed threads]. rewrite Hlive, Hi.
      unfold thread_step, send. cbn [relay output chclosed buf cap]. rewrite Ho, Hcap.
      cbn [length]. rewrite (proj2 (Nat.ltb_lt _ _) (Nat.lt_succ_diag_r _)).
      split; [reflexivity|]. cbn. repeat split; assumption.
  - split.
    + rewrite (step_Run w i _ Hlive Hi). unfold thread_step. rewrite Hfull. reflexivity.
    + unfold step at 1. rewrite Hlive. unfold consume, recv. rewrite Hb.
      eexists _, _. split; [reflexivity|]. split; [reflexivity|].
      unfold step. cbn [crashed threads]. rewrite Hlive, Hi.
      unfold thread_step, send. cbn [relay output chclosed buf cap]. rewrite Ho, Hcap.
      cbn [length]. rewrite (proj2 (Nat.ltb_lt _ _) (Nat.lt_succ_diag_r _)).
      split; [reflexivity|]. cbn. repeat split; assumption.
Qed.

(** The emitter of an empty sequence and the consumer, after a disconnection
    was handled to its end. *)
Lemma nothing_written_after_close_witness :
  exists w',
    run [Run 2; Run 2; Receive; Receive] closed_then_empty = Some w'
    /\ chclosed (output (relay w')) = true
    /\ written (trace w') = written (trace closed_then_empty)
    /\ exists k, buf (output (relay closed_then_empty)) = k ++ buf (output (relay w'))
                 /\ received w' = received closed_then_empty ++ k.
Proof.
  eexists. split; [vm_compute; reflexivity|].
  apply (nothing_written_after_close [Run 2; Run 2; Receive; Receive] closed_then_empty).
  - reflexivity.
  - vm_compute. reflexivity.
Defined.

(** The pairing success that finds seven unread codes in the buffer. *)
Lemma status_send_waits_for_room_witness :
  step (Run 2) backlog_then_success = None
  /\ exists w1 w2,
       step Receive backlog_then_success = Some w1
       /\ received w1 = received backlog_then_success ++ ["1"]
       /\ step (Run 2) w1 = Some w2
       /\ buf (output (relay w2)) = ["2"; "3"; "4"; "5"; "6"; "7"] ++ [QRChannelSuccess]
       /\ trace w2 = trace backlog_then_success ++ [WroteStatus 2 QRChannelSuccess]
       /\ chclosed (output (relay w2)) = false
       /\ crashed w2 = false.
Proof.
  apply (status_send_waits_for_room backlog_then_success 2 (H_send QRChannelSuccess)
           QRChannelSuccess "1" ["2"; "3"; "4"; "5"; "6"; "7"]).
  - reflexivity.
  - reflexivity.
  - left. reflexivity.
  - reflexivity.
  - reflexivity.
  - reflexivity.
Defined.
